(** * pkg/cluster/nodes/node.go: the node handle and its metadata cache

    A shallow embedding of [Node], [nodeCache] and [getProxyDetails].
    Go strings are byte strings and are modelled by [string]; [int32] and
    [int64] values are modelled by [Z], with the conversions written out.
    The container runtime and the process-execution layer are external
    collaborators: they are an interface ([Runtime]) whose answers may
    depend on a hidden, changing world. *)

From Stdlib Require Import ZArith Lia Ascii String List.
From stdpp Require Import base option list strings gmap.

Local Open Scope Z_scope.

(** ** Bytes *)

Definition byte_val (c : ascii) : Z := Z.of_N (N_of_ascii c).

Definition byte_of (z : Z) : ascii := ascii_of_N (Z.to_N z).

Definition byte_eqb (c d : ascii) : bool := Ascii.eqb c d.

(** The double-quote byte, which a string literal cannot hold. *)
Definition dquote : string := String (byte_of 34) EmptyString.

(** ** The parts of Go's standard library that node.go calls *)

Module strings.

(** [strings.Trim(s, cutset)] for a cutset of ASCII bytes: bytes of the
    cutset are dropped from both ends.  (Go works on code points; on a
    cutset of ASCII bytes that is the same, because no byte of a
    multi-byte UTF-8 sequence is an ASCII byte.) *)
Fixpoint contains_byte (cutset : string) (c : ascii) : bool :=
  match cutset with
  | EmptyString => false
  | String d rest => byte_eqb c d || contains_byte rest c
  end.

Fixpoint TrimLeft (s cutset : string) : string :=
  match s with
  | EmptyString => EmptyString
  | String c rest => if contains_byte cutset c then TrimLeft rest cutset else s
  end.

(** [TrimRight] walks to the end and drops on the way back. *)
Fixpoint TrimRight (s cutset : string) : string :=
  match s with
  | EmptyString => EmptyString
  | String c rest =>
      match TrimRight rest cutset with
      | EmptyString => if contains_byte cutset c then EmptyString
                       else String c EmptyString
      | kept => String c kept
      end
  end.

Definition Trim (s cutset : string) : string :=
  TrimRight (TrimLeft s cutset) cutset.

(** [strings.ToLower] on ASCII: 'A'..'Z' are moved to 'a'..'z', every
    other byte is kept. *)
Definition lower_byte (c : ascii) : ascii :=
  let v := byte_val c in
  if (65 <=? v) && (v <=? 90) then byte_of (v + 32) else c.

Fixpoint ToLower (s : string) : string :=
  match s with
  | EmptyString => EmptyString
  | String c rest => String (lower_byte c) (ToLower rest)
  end.

End strings.

Module strconv.

Inductive numErr : Type := ErrSyntax | ErrRange.

(** [*strconv.NumError]: the failing function, the input, the reason. *)
Record NumError : Type := mkNumError {
  Func : string;
  Num : string;
  Err : numErr
}.

Definition syntaxError (fn str : string) : NumError := mkNumError fn str ErrSyntax.
Definition rangeError (fn str : string) : NumError := mkNumError fn str ErrRange.

Definition maxUint64 : Z := 2 ^ 64 - 1.

(** The digit loop of [ParseUint], for an explicit base (no underscores).
    [n] is the uint64 accumulator. *)
Fixpoint parseUint_loop (s0 : string) (base cutoff maxVal : Z)
         (s : string) (n : Z) : Z * option NumError :=
  match s with
  | EmptyString => (n, None)
  | String c rest =>
      let v := byte_val c in
      let d :=
        if (48 <=? v) && (v <=? 57) then Some (v - 48)
        else if (97 <=? v) && (v <=? 122) then Some (v - 97 + 10)
        else if (65 <=? v) && (v <=? 90) then Some (v - 65 + 10)
        else None in
      match d with
      | None => (0, Some (syntaxError "ParseUint" s0))
      | Some d =>
          if base <=? d then (0, Some (syntaxError "ParseUint" s0))
          else if cutoff <=? n then (maxVal, Some (rangeError "ParseUint" s0))
          else
            let n' := n * base in
            let n1 := (n' + d) mod 2 ^ 64 in
            if (n1 <? n') || (maxVal <? n1)
            then (maxVal, Some (rangeError "ParseUint" s0))
            else parseUint_loop s0 base cutoff maxVal rest n1
      end
  end.

(** [strconv.ParseUint(s, base, bitSize)] for 2 <= base <= 36 and
    1 <= bitSize <= 64. *)
Definition ParseUint (s : string) (base bitSize : Z) : Z * option NumError :=
  match s with
  | EmptyString => (0, Some (syntaxError "ParseUint" s))
  | _ =>
      let cutoff := maxUint64 / base + 1 in
      let maxVal := 2 ^ bitSize - 1 in
      parseUint_loop s base cutoff maxVal s 0
  end.

(** [strconv.ParseInt(s, base, bitSize)], same ranges. *)
Definition ParseInt (s0 : string) (base bitSize : Z) : Z * option NumError :=
  match s0 with
  | EmptyString => (0, Some (syntaxError "ParseInt" s0))
  | String c rest =>
      let '(neg, s) :=
        if byte_eqb c "+" then (false, rest)
        else if byte_eqb c "-" then (true, rest)
        else (false, s0) in
      let '(un, err) := ParseUint s base bitSize in
      match err with
      | Some (mkNumError _ _ ErrSyntax) => (0, Some (syntaxError "ParseInt" s0))
      | _ =>
          let cutoff := 2 ^ (bitSize - 1) in
          if negb neg && (cutoff <=? un)
          then (cutoff - 1, Some (rangeError "ParseInt" s0))
          else if neg && (cutoff <? un)
          then (- cutoff, Some (rangeError "ParseInt" s0))
          else (if neg then - un else un, None)
      end
  end.

End strconv.

Module filepath.

(** [path/filepath] on Unix: the separator is '/', there is no volume
    name and [FromSlash] is the identity. *)
Definition IsPathSeparator (c : ascii) : bool := byte_eqb c "/".

Definition starts_sep_or_empty (s : string) : bool :=
  match s with
  | EmptyString => true
  | String c _ => IsPathSeparator c
  end.

(** The output buffer of [Clean] is kept reversed: its head is the byte
    written last, and [out.w] is its length. *)
Definition buf : Type := list ascii.

(** The ".." case when [out.w > dotdot]:
    [out.w--; for out.w > dotdot && !IsPathSeparator(out.index(out.w)) { out.w-- }] *)
Fixpoint backtrack (out : buf) (dotdot : nat) : buf :=
  match out with
  | [] => []
  | c :: out' =>
      if (dotdot <? length out')%nat && negb (IsPathSeparator c)
      then backtrack out' dotdot
      else out'
  end.

(** [for ; r < n && !IsPathSeparator(path[r]); r++ { out.append(path[r]) }] *)
Fixpoint copy_element (path : string) (out : buf) : string * buf :=
  match path with
  | EmptyString => (path, out)
  | String c rest =>
      if IsPathSeparator c then (path, out) else copy_element rest (c :: out)
  end.

(** The main loop of [Clean]; [path] is what is left to read from index
    [r] on.  Every round reads at least one byte, so the length of the
    path is enough fuel. *)
Fixpoint clean_loop (fuel : nat) (rooted : bool) (path : string)
         (out : buf) (dotdot : nat) : buf :=
  match fuel with
  | O => out
  | S fuel' =>
      match path with
      | EmptyString => out
      | String c rest =>
          if IsPathSeparator c then
            (* empty path element *)
            clean_loop fuel' rooted rest out dotdot
          else if byte_eqb c "." && starts_sep_or_empty rest then
            (* . element *)
            clean_loop fuel' rooted rest out dotdot
          else
            match rest with
            | String c2 rest2 =>
                if byte_eqb c "." && byte_eqb c2 "." && starts_sep_or_empty rest2 then
                  (* .. element: remove to last separator *)
                  if (dotdot <? length out)%nat then
                    clean_loop fuel' rooted rest2 (backtrack out dotdot) dotdot
                  else if negb rooted then
                    let out1 := if (0 <? length out)%nat
                                then ("/"%char : ascii) :: out else out in
                    let out2 := ("."%char : ascii) :: ("."%char : ascii) :: out1 in
                    clean_loop fuel' rooted rest2 out2 (length out2)
                  else clean_loop fuel' rooted rest2 out dotdot
                else
                  let out1 :=
                    if (rooted && negb (length out =? 1)%nat)
                       || (negb rooted && negb (length out =? 0)%nat)
                    then ("/"%char : ascii) :: out else out in
                  let '(path', out2) := copy_element path out1 in
                  clean_loop fuel' rooted path' out2 dotdot
            | EmptyString =>
                let out1 :=
                  if (rooted && negb (length out =? 1)%nat)
                     || (negb rooted && negb (length out =? 0)%nat)
                  then ("/"%char : ascii) :: out else out in
                let '(path', out2) := copy_element path out1 in
                clean_loop fuel' rooted path' out2 dotdot
            end
      end
  end.

Definition string_of_buf (out : buf) : string :=
  fold_left (fun acc c => String c acc) out EmptyString.

(** [filepath.Clean(path)] *)
Definition Clean (path : string) : string :=
  match path with
  | EmptyString => "."
  | String c rest =>
      let rooted := IsPathSeparator c in
      let out :=
        if rooted
        then clean_loop (String.length path) rooted rest [("/"%char : ascii)] 1
        else clean_loop (String.length path) rooted path [] 0 in
      match out with
      | [] => "."
      | _ => string_of_buf out
      end
  end.

(** The prefix [path[:i+1]] where [i] is the index of the last
    separator, the empty string when there is none. *)
Fixpoint upto_last_separator (path : string) : string :=
  match path with
  | EmptyString => EmptyString
  | String c rest =>
      match upto_last_separator rest with
      | EmptyString => if IsPathSeparator c then String c EmptyString
                       else EmptyString
      | kept => String c kept
      end
  end.

(** [filepath.Dir(path)] *)
Definition Dir (path : string) : string := Clean (upto_last_separator path).

End filepath.

(** ** Errors *)

(** An operand of a format string ([%d], [%s], [%q]). *)
Inductive fmtarg : Type :=
| ArgInt (i : Z)
| ArgStr (s : string).

Module errors.

(** Go [error] values, as node.go meets and makes them.  [Errorf],
    [Wrap] and [Wrapf] are the constructors of github.com/pkg/errors and
    keep their operands; [Foreign] stands for whatever error value a
    collaborator hands back. *)
Inductive error : Type :=
| Foreign (msg : string)
| NumError (e : strconv.NumError)
| Errorf (format : string) (args : list fmtarg)
| Wrap (cause : error) (message : string)
| Wrapf (cause : error) (format : string) (args : list fmtarg).

End errors.

Abbreviation error := errors.error.

(** ** Commands and the external collaborators *)

(** An [exec.Cmd] built by [docker.ContainerCmder(name).Command(...)]:
    the container it runs in, the program, its arguments and what has
    been set as standard input. *)
Record Cmd : Type := mkCmd {
  container : string;
  command : string;
  args : list string;
  stdin : option string
}.

(** [cmd.SetStdin(r)]; a reader is modelled by the bytes it delivers. *)
Definition SetStdin (cmd : Cmd) (r : string) : Cmd :=
  {| container := container cmd; command := command cmd;
     args := args cmd; stdin := Some r |}.

(** [strings.NewReader(s)] *)
Definition NewReader (s : string) : string := s.

(** The calls node.go makes into the docker and exec packages. *)
Inductive call : Type :=
| CallInspect (containerNameOrID format : string)
| CallCopyTo (source containerNameOrID dest : string)
| CallCopyFrom (containerNameOrID source dest : string)
| CallCombinedOutputLines (cmd : Cmd)
| CallRunLoggingOutputOnFail (cmd : Cmd)
| CallRun (cmd : Cmd).

(** What a call hands back: output lines (empty for the calls that only
    return an error) and the error, [None] for Go's [nil]. *)
Definition response : Type := list string * option error.

(** The container runtime and process-execution layer.  [W] is whatever
    the outside world is made of; every call may read and change it. *)
Class Runtime (W : Type) : Type := {
  inspect : string -> string -> W -> (list string * option error) * W;
  copyTo : string -> string -> string -> W -> option error * W;
  copyFrom : string -> string -> string -> W -> option error * W;
  combinedOutputLines : Cmd -> W -> (list string * option error) * W;
  runLoggingOutputOnFail : Cmd -> W -> option error * W;
  runCmd : Cmd -> W -> option error * W
}.

Definition perform {W} `{Runtime W} (c : call) (w : W) : response * W :=
  match c with
  | CallInspect name format => inspect name format w
  | CallCopyTo source name dest =>
      let '(err, w') := copyTo source name dest w in (([], err), w')
  | CallCopyFrom name source dest =>
      let '(err, w') := copyFrom name source dest w in (([], err), w')
  | CallCombinedOutputLines cmd => combinedOutputLines cmd w
  | CallRunLoggingOutputOnFail cmd =>
      let '(err, w') := runLoggingOutputOnFail cmd w in (([], err), w')
  | CallRun cmd => let '(err, w') := runCmd cmd w in (([], err), w')
  end.

(** ** The metadata cache *)

Record nodeCache : Type := mkNodeCache {
  kubernetesVersion : string;
  ip : string;
  ports : option (gmap Z Z);   (* [None] is the nil map *)
  role : string
}.

(** The zero value a handle starts with. *)
Definition emptyCache : nodeCache :=
  {| kubernetesVersion := ""; ip := ""; ports := None; role := "" |}.

(** [cache.ports[p]] with the nil check of [nodeCache.HostPort]. *)
Definition HostPort (cache : nodeCache) (p : Z) : Z * bool :=
  match ports cache with
  | None => (0, false)
  | Some m =>
      match m !! p with
      | Some v => (v, true)
      | None => (0, false)
      end
  end.

(** The four setter closures handed to [nodeCache.set]. *)
Definition set_kubernetesVersion (version : string) (cache : nodeCache) : nodeCache :=
  {| kubernetesVersion := version; ip := ip cache;
     ports := ports cache; role := role cache |}.

Definition set_ip (v : string) (cache : nodeCache) : nodeCache :=
  {| kubernetesVersion := kubernetesVersion cache; ip := v;
     ports := ports cache; role := role cache |}.

Definition set_port (containerPort hostPort : Z) (cache : nodeCache) : nodeCache :=
  let m := match ports cache with
           | None => ∅
           | Some m => m
           end in
  {| kubernetesVersion := kubernetesVersion cache; ip := ip cache;
     ports := Some (<[containerPort := hostPort]> m); role := role cache |}.

Definition set_role (v : string) (cache : nodeCache) : nodeCache :=
  {| kubernetesVersion := kubernetesVersion cache; ip := ip cache;
     ports := ports cache; role := v |}.

(** ** Programs over the cache and the collaborators

    A method body is a tree of its atomic steps: a read of the cache under
    the read lock, a [set] under the write lock, or a call that leaves the
    process.  The tree is what the method does; [run] below executes one
    method at a time. *)
Inductive prog (A : Type) : Type :=
| Ret (a : A)
| RLocked (k : nodeCache -> prog A)
| Locked (setter : nodeCache -> nodeCache) (k : prog A)
| Ext (c : call) (k : response -> prog A).

Arguments Ret {A} a.
Arguments RLocked {A} k.
Arguments Locked {A} setter k.
Arguments Ext {A} c k.

Fixpoint bind {A B : Type} (m : prog A) (f : A -> prog B) : prog B :=
  match m with
  | Ret a => f a
  | RLocked k => RLocked (fun cache => bind (k cache) f)
  | Locked setter k => Locked setter (bind k f)
  | Ext c k => Ext c (fun r => bind (k r) f)
  end.

Notation "x <- m ;; k" := (bind m (fun x => k))
  (at level 100, m at next level, right associativity).

Module cache.
Definition set (setter : nodeCache -> nodeCache) : prog unit :=
  Locked setter (Ret tt).
Definition KubeVersion : prog string :=
  RLocked (fun cache => Ret (kubernetesVersion cache)).
Definition IP : prog string := RLocked (fun cache => Ret (ip cache)).
Definition HostPort (p : Z) : prog (Z * bool) :=
  RLocked (fun cache => Ret (HostPort cache p)).
Definition Role : prog string := RLocked (fun cache => Ret (role cache)).
End cache.

Module docker.
Definition Inspect (name format : string) : prog response :=
  Ext (CallInspect name format) Ret.
Definition CopyTo (source name dest : string) : prog (option error) :=
  Ext (CallCopyTo source name dest) (fun r => Ret (snd r)).
Definition CopyFrom (name source dest : string) : prog (option error) :=
  Ext (CallCopyFrom name source dest) (fun r => Ret (snd r)).
End docker.

Module exec.
Definition CombinedOutputLines (cmd : Cmd) : prog response :=
  Ext (CallCombinedOutputLines cmd) Ret.
Definition RunLoggingOutputOnFail (cmd : Cmd) : prog (option error) :=
  Ext (CallRunLoggingOutputOnFail cmd) (fun r => Ret (snd r)).
Definition Run (cmd : Cmd) : prog (option error) :=
  Ext (CallRun cmd) (fun r => Ret (snd r)).
End exec.

(** ** Running one method at a time *)

Record sys (W : Type) : Type := mkSys {
  cache_of : nodeCache;          (* the object the handle's [cache] points to *)
  world : W;                     (* the collaborators' own state *)
  trace : list (call * response) (* every call made so far, oldest first *)
}.

Arguments mkSys {W} _ _ _.
Arguments cache_of {W} _.
Arguments world {W} _.
Arguments trace {W} _.

Fixpoint run {W} `{Runtime W} {A : Type} (p : prog A) (s : sys W) : A * sys W :=
  match p with
  | Ret a => (a, s)
  | RLocked k => run (k (cache_of s)) s
  | Locked setter k => run k (mkSys (setter (cache_of s)) (world s) (trace s))
  | Ext c k =>
      let '(r, w') := perform c (world s) in
      run (k r) (mkSys (cache_of s) w' (trace s ++ [(c, r)]))
  end.

(** ** The node handle *)

(** [Node.name]; the other field, [cache *nodeCache], points to the
    [cache_of] component of the state. *)
Record Node : Type := mkNode { name : string }.

(** [int32(x)] for an [int64] [x]: the low 32 bits, read as signed. *)
Definition int32 (x : Z) : Z := (x + 2 ^ 31) mod 2 ^ 32 - 2 ^ 31.

(** [len(lines)] as the operand of [%d]. *)
Definition len {A} (l : list A) : Z := Z.of_nat (length l).

Section NodeHandle.

(** [fmt.Sprintf], left to Go's fmt package. *)
Variable Sprintf : string -> list fmtarg -> string.

(** [constants.NodeRoleKey], the label that holds a node's role. *)
Variable NodeRoleKey : string.

(** [n.Command(command, args...)], through [docker.ContainerCmder(n.name)]. *)
Definition Command (n : Node) (command : string) (args : list string) : Cmd :=
  {| container := name n; command := command; args := args; stdin := None |}.

Definition CopyTo (n : Node) (source dest : string) : prog (option error) :=
  docker.CopyTo source (name n) dest.

Definition CopyFrom (n : Node) (source dest : string) : prog (option error) :=
  docker.CopyFrom (name n) source dest.

Definition KubeVersion (n : Node) : prog (string * option error) :=
  (* use the cached version first *)
  cachedVersion <- cache.KubeVersion ;;
  if negb (String.eqb cachedVersion "") then Ret (cachedVersion, None) else
  (* grab kubernetes version from the node image *)
  let cmd := Command n "cat" ["/kind/version"] in
  r <- exec.CombinedOutputLines cmd ;;
  let '(lines, err) := r in
  match err with
  | Some e => Ret ("", Some (errors.Wrap e "failed to get file"))
  | None =>
      if negb (length lines =? 1)%nat
      then Ret ("", Some (errors.Errorf
                  "file should only be one line, got %d lines" [ArgInt (len lines)]))
      else
        let version := hd "" lines in
        _ <- cache.set (set_kubernetesVersion version) ;;
        Ret (version, None)
  end.

Definition IP (n : Node) : prog (string * option error) :=
  (* use the cached version first *)
  cachedIP <- cache.IP ;;
  if negb (String.eqb cachedIP "") then Ret (cachedIP, None) else
  (* retrieve the IP address of the node using docker inspect *)
  r <- docker.Inspect (name n)
         "{{range .NetworkSettings.Networks}}{{.IPAddress}}{{end}}" ;;
  let '(lines, err) := r in
  match err with
  | Some e => Ret ("", Some (errors.Wrap e "failed to get file"))
  | None =>
      if negb (length lines =? 1)%nat
      then Ret ("", Some (errors.Errorf
                  "file should only be one line, got %d lines" [ArgInt (len lines)]))
      else
        let ip := hd "" lines in
        _ <- cache.set (set_ip ip) ;;
        Ret (ip, None)
  end.

Definition Ports (n : Node) (containerPort : Z) : prog (Z * option error) :=
  (* use the cached version first *)
  c <- cache.HostPort containerPort ;;
  let '(hostPort, isCached) := c in
  if isCached then Ret (hostPort, None) else
  (* retrieve the specific port mapping using docker inspect *)
  r <- docker.Inspect (name n)
         (Sprintf ("{{(index (index .NetworkSettings.Ports " +:+ dquote
                   +:+ "%d/tcp" +:+ dquote +:+ ") 0).HostPort}}")
                  [ArgInt containerPort]) ;;
  let '(lines, err) := r in
  match err with
  | Some e => Ret (-1, Some (errors.Wrap e "failed to get file"))
  | None =>
      if negb (length lines =? 1)%nat
      then Ret (-1, Some (errors.Errorf
                  "file should only be one line, got %d lines" [ArgInt (len lines)]))
      else
        let '(parsed, err) := strconv.ParseInt (hd "" lines) 10 32 in
        match err with
        | Some e => Ret (-1, Some (errors.Wrap (errors.NumError e) "failed to get file"))
        | None =>
            let hostPort := int32 parsed in
            (* cache it *)
            _ <- cache.set (set_port containerPort hostPort) ;;
            Ret (hostPort, None)
        end
  end.

Definition Role (n : Node) : prog (string * option error) :=
  role <- cache.Role ;;
  (* use the cached version first *)
  if negb (String.eqb role "") then Ret (role, None) else
  (* retrieve the role of the node using docker inspect *)
  r <- docker.Inspect (name n)
         (Sprintf "{{index .Config.Labels %q}}" [ArgStr NodeRoleKey]) ;;
  let '(lines, err) := r in
  match err with
  | Some e => Ret ("", Some (errors.Wrapf e "failed to get %q label" [ArgStr NodeRoleKey]))
  | None =>
      if negb (length lines =? 1)%nat
      then Ret ("", Some (errors.Errorf
                  "%q label should only be one line, got %d lines"
                  [ArgStr NodeRoleKey; ArgInt (len lines)]))
      else
        let role := strings.Trim (hd "" lines) "'" in
        _ <- cache.set (set_role role) ;;
        Ret (role, None)
  end.

Definition WriteFile (n : Node) (dest content : string) : prog (option error) :=
  (* create destination directory *)
  let cmd := Command n "mkdir" ["-p"; filepath.Dir dest] in
  err <- exec.RunLoggingOutputOnFail cmd ;;
  match err with
  | Some e => Ret (Some (errors.Wrapf e "failed to create directory %s" [ArgStr dest]))
  | None =>
      exec.Run (SetStdin (Command n "cp" ["/dev/stdin"; dest]) (NewReader content))
  end.

Definition ImageInspect (n : Node) (containerNameOrID : string) : prog response :=
  let cmd := Command n "crictl"
               ["-r"; "/var/run/containerd/containerd.sock"; "inspecti";
                containerNameOrID] in
  exec.CombinedOutputLines cmd.

Definition LoadImageArchive (n : Node) (image : string) : prog (option error) :=
  let cmd := Command n "ctr" ["--namespace=k8s.io"; "images"; "import"; "-"] in
  let cmd := SetStdin cmd image in
  err <- exec.Run cmd ;;
  match err with
  | Some e => Ret (Some (errors.Wrap e "failed to load image"))
  | None => Ret None
  end.

End NodeHandle.

(** ** Proxy settings of the host *)

Module os.
(** [os.Getenv(key)] against an explicit environment: the value, or the
    empty string when the variable is not set. *)
Definition Getenv (env : gmap string string) (key : string) : string :=
  default "" (env !! key).
End os.

Record proxyDetails : Type := mkProxyDetails { Envs : gmap string string }.

Definition proxyEnvs : list string := ["HTTP_PROXY"; "HTTPS_PROXY"; "NO_PROXY"].

(** The body of the [for _, name := range proxyEnvs] loop. *)
Definition proxy_step (env : gmap string string) (details : proxyDetails)
           (name : string) : proxyDetails :=
  let val := os.Getenv env name in
  if negb (String.eqb val "") then {| Envs := <[name := val]> (Envs details) |}
  else
    let val := os.Getenv env (strings.ToLower name) in
    if negb (String.eqb val "") then {| Envs := <[name := val]> (Envs details) |}
    else details.

Definition getProxyDetails (env : gmap string string) : proxyDetails :=
  fold_left (proxy_step env) proxyEnvs {| Envs := ∅ |}.

(** ** Sequences of operations on one handle *)

Inductive op : Type :=
| OpKubeVersion
| OpIP
| OpPorts (containerPort : Z)
| OpRole
| OpCopyTo (source dest : string)
| OpCopyFrom (source dest : string)
| OpWriteFile (dest content : string)
| OpImageInspect (containerNameOrID : string)
| OpLoadImageArchive (image : string).

(** What an operation returns, by the shape of its Go result. *)
Inductive outcome : Type :=
| OutString (v : string) (err : option error)
| OutPort (v : Z) (err : option error)
| OutLines (lines : list string) (err : option error)
| OutErr (err : option error).

Definition outcome_err (o : outcome) : option error :=
  match o with
  | OutString _ err | OutPort _ err | OutLines _ err | OutErr err => err
  end.

Section Invoke.

Variable Sprintf : string -> list fmtarg -> string.
Variable NodeRoleKey : string.

(** The one external call each query makes on a miss. *)
Definition catVersion (n : Node) : call :=
  CallCombinedOutputLines (Command n "cat" ["/kind/version"]).

Definition inspectIP (n : Node) : call :=
  CallInspect (name n) "{{range .NetworkSettings.Networks}}{{.IPAddress}}{{end}}".

Definition inspectPort (n : Node) (containerPort : Z) : call :=
  CallInspect (name n)
    (Sprintf ("{{(index (index .NetworkSettings.Ports " +:+ dquote
              +:+ "%d/tcp" +:+ dquote +:+ ") 0).HostPort}}")
             [ArgInt containerPort]).

Definition inspectRole (n : Node) : call :=
  CallInspect (name n) (Sprintf "{{index .Config.Labels %q}}" [ArgStr NodeRoleKey]).

Definition invoke (n : Node) (o : op) : prog outcome :=
  match o with
  | OpKubeVersion => r <- KubeVersion n ;; Ret (OutString (fst r) (snd r))
  | OpIP => r <- IP n ;; Ret (OutString (fst r) (snd r))
  | OpPorts p => r <- Ports Sprintf n p ;; Ret (OutPort (fst r) (snd r))
  | OpRole => r <- Role Sprintf NodeRoleKey n ;; Ret (OutString (fst r) (snd r))
  | OpCopyTo source dest => e <- CopyTo n source dest ;; Ret (OutErr e)
  | OpCopyFrom source dest => e <- CopyFrom n source dest ;; Ret (OutErr e)
  | OpWriteFile dest content => e <- WriteFile n dest content ;; Ret (OutErr e)
  | OpImageInspect id => r <- ImageInspect n id ;; Ret (OutLines (fst r) (snd r))
  | OpLoadImageArchive image => e <- LoadImageArchive n image ;; Ret (OutErr e)
  end.

(** The state after a list of operations, one after the other. *)
Fixpoint run_ops {W} `{Runtime W} (n : Node) (l : list op) (s : sys W) : sys W :=
  match l with
  | [] => s
  | o :: l' => run_ops n l' (snd (run (invoke n o) s))
  end.

End Invoke.

(** The calls an execution added to the trace. *)
Definition issued {W} (before after : sys W) : list (call * response) :=
  drop (length (trace before)) (trace after).

(** ** A scripted stand-in for the collaborators

    Its world is the list of answers still to be given; every call takes
    the next one, whatever is asked. *)
Definition next_answer (w : list response) : response * list response :=
  match w with
  | [] => (([], Some (errors.Foreign "no answer left")), [])
  | r :: w' => (r, w')
  end.

Definition next_error (w : list response) : option error * list response :=
  (snd (fst (next_answer w)), snd (next_answer w)).

#[export] Instance Scripted : Runtime (list response) := {|
  inspect _ _ := next_answer;
  copyTo _ _ _ := next_error;
  copyFrom _ _ _ := next_error;
  combinedOutputLines _ := next_answer;
  runLoggingOutputOnFail _ := next_error;
  runCmd _ := next_error
|}.

(** A fresh handle in front of a script. *)
Definition fresh (script : list response) : sys (list response) :=
  mkSys emptyCache script [].

(** A stand-in for [fmt.Sprintf] that keeps the format and drops the
    operands; enough to run the scripted examples. *)
Definition plainSprintf (format : string) (_ : list fmtarg) : string := format.

Definition kindNode : Node := {| name := "kind-control-plane" |}.

(** ** What the text of a port may be

    A well-formed base-10 integer is an optional sign followed by one or
    more decimal digits; [decimal_value] is the number it denotes. *)
Definition is_digit (c : ascii) : bool :=
  (48 <=? byte_val c) && (byte_val c <=? 57).

Fixpoint digits_value (s : string) (acc : Z) : option Z :=
  match s with
  | EmptyString => Some acc
  | String c rest =>
      if is_digit c then digits_value rest (acc * 10 + (byte_val c - 48)) else None
  end.

Definition unsigned_value (s : string) : option Z :=
  match s with
  | EmptyString => None
  | _ => digits_value s 0
  end.

Definition decimal_value (s : string) : option Z :=
  match s with
  | EmptyString => None
  | String c rest =>
      if byte_eqb c "+" then unsigned_value rest
      else if byte_eqb c "-" then Z.opp <$> unsigned_value rest
      else unsigned_value s
  end.

Definition in_int32 (v : Z) : Prop := - 2 ^ 31 <= v < 2 ^ 31.

(** ** How an error reaches the caller *)

(** [e] was made by [errors.Errorf], [errors.Wrap] or [errors.Wrapf]: it
    carries a message written in node.go. *)
Definition described (e : error) : bool :=
  match e with
  | errors.Errorf _ _ | errors.Wrap _ _ | errors.Wrapf _ _ _ => true
  | errors.Foreign _ | errors.NumError _ => false
  end.

(** Every error any operation returns from state [s] carries a message of
    node.go. *)
Definition errors_all_described {W} `{Runtime W}
           (Sprintf : string -> list fmtarg -> string) (NodeRoleKey : string)
           (n : Node) (s : sys W) : Prop :=
  forall o e,
    outcome_err (fst (run (invoke Sprintf NodeRoleKey n o) s)) = Some e ->
    described e = true.

(** A runtime whose next answer is a failure. *)
Definition exitStatus1 : error := errors.Foreign "exit status 1".

Definition failing : sys (list response) := fresh [([], Some exitStatus1)].

(** ** The order on caches *)

(** [grows c c']: whatever is set in [c] is set to the same value in [c'].
    A string field is set when it is not empty, a port when the map has
    an entry for it. *)
Definition grows (c c' : nodeCache) : Prop :=
  (kubernetesVersion c <> "" -> kubernetesVersion c' = kubernetesVersion c) /\
  (ip c <> "" -> ip c' = ip c) /\
  (role c <> "" -> role c' = role c) /\
  (forall p h, HostPort c p = (h, true) -> HostPort c' p = (h, true)).


(** What one round of the loop settles for its name. *)
Definition proxy_value (env : gmap string string) (name : string) : option string :=
  if negb (String.eqb (os.Getenv env name) "") then Some (os.Getenv env name)
  else if negb (String.eqb (os.Getenv env (strings.ToLower name)) "")
       then Some (os.Getenv env (strings.ToLower name))
       else None.


(** ** Worked examples: scripts and environments *)

(** The role label of upstream kind, for the examples. *)
Definition roleKey : string := "io.k8s.sigs.kind.role".

Definition versionScript : list response :=
  [(["v1.13.4"], None); (["172.17.0.2"], None); (["32769"], None);
   (["'control-plane'"], None)].

(** The handle after a first [KubeVersion], [IP], [Ports 6443], [Role]. *)
Definition afterVersion : sys (list response) :=
  snd (run (KubeVersion kindNode) (fresh versionScript)).

Definition afterIP : sys (list response) :=
  snd (run (IP kindNode) afterVersion).

Definition afterPort : sys (list response) :=
  snd (run (Ports plainSprintf kindNode 6443) afterIP).

Definition afterRole : sys (list response) :=
  snd (run (Role plainSprintf roleKey kindNode) afterPort).

(** What runs between the first call and the next one. *)
Definition later : list op :=
  [OpWriteFile "/kind/manifests/default-cni.yaml" "kind: List";
   OpPorts 6443; OpKubeVersion; OpCopyFrom "/etc/kubernetes/admin.conf" "/tmp/admin.conf";
   OpRole; OpIP].

Definition noLines : sys (list response) := fresh [([], None); (["v1.13.4"], None)].

Definition twoLines : sys (list response) := fresh [(["a"; "b"], None)].

Definition lowerOnly : gmap string string :=
  <["HTTP_PROXY" := ""]> (<["http_proxy" := "http://x"]> ∅).

Definition bothCases : gmap string string :=
  <["HTTP_PROXY" := "http://y"]> (<["http_proxy" := "http://x"]> ∅).

Definition afterNoLines : sys (list response) :=
  snd (run (KubeVersion kindNode) noLines).

(** [mkdir] fails. *)
Definition mkdirFails : sys (list response) := failing.

(** [mkdir] succeeds, [cp] fails. *)
Definition cpFails : sys (list response) := fresh [([], None); ([], Some exitStatus1)].

Definition bothSucceed : sys (list response) := fresh [([], None); ([], None)].

Definition notANumber : sys (list response) := fresh [(["not-a-number"], None)].

Definition tooLarge : sys (list response) := fresh [(["3000000000"], None)].

Definition goodPort : sys (list response) := fresh [(["32769"], None)].

Definition quotedRole : sys (list response) := fresh [(["'control-plane'"], None)].

Definition cniManifest : string := "/kind/manifests/default-cni.yaml".

Definition writeManifest : op := OpWriteFile cniManifest "kind: List".

(** ** Overlapping calls

    Several goroutines may be inside methods of one handle at once.  Each
    step of a method body is atomic: a cache access holds the lock for its
    whole duration, and a call into the runtime is taken at the moment it
    is answered.  A schedule names, step by step, the thread that moves. *)
Definition thread_step {W} `{Runtime W} {A : Type} (p : prog A) (s : sys W)
  : option (prog A * sys W) :=
  match p with
  | Ret _ => None
  | RLocked k => Some (k (cache_of s), s)
  | Locked setter k => Some (k, mkSys (setter (cache_of s)) (world s) (trace s))
  | Ext c k =>
      let '(r, w') := perform c (world s) in
      Some (k r, mkSys (cache_of s) w' (trace s ++ [(c, r)]))
  end.

(** A thread that has returned, or an index outside the pool, lets the
    turn pass. *)
Fixpoint schedule {W} `{Runtime W} {A : Type} (order : list nat)
         (pool : list (prog A)) (s : sys W) : list (prog A) * sys W :=
  match order with
  | [] => (pool, s)
  | i :: order' =>
      match pool !! i with
      | Some p =>
          match thread_step p s with
          | Some (p', s') => schedule order' (<[i := p']> pool) s'
          | None => schedule order' pool s
          end
      | None => schedule order' pool s
      end
  end.

Section Settled.

Variable Sprintf : string -> list fmtarg -> string.
Variable NodeRoleKey : string.
Variable n : Node.

(** The answer of a runtime that gives one answer per question. *)
Variable answer : call -> response.

(** What each query stores when that answer is good. *)
Definition settled_version : string := hd "" (fst (answer (catVersion n))).

Definition settled_ip : string := hd "" (fst (answer (inspectIP n))).

Definition settled_role : string :=
  strings.Trim (hd "" (fst (answer (inspectRole Sprintf NodeRoleKey n)))) "'".

Definition settled_port (p : Z) : Z :=
  int32 (fst (strconv.ParseInt (hd "" (fst (answer (inspectPort Sprintf n p)))) 10 32)).

(** Every field of the cache is unset or holds the settled value. *)
Definition within (c : nodeCache) : Prop :=
  (kubernetesVersion c = "" \/ kubernetesVersion c = settled_version) /\
  (ip c = "" \/ ip c = settled_ip) /\
  (role c = "" \/ role c = settled_role) /\
  (forall p h, HostPort c p = (h, true) -> h = settled_port p).

(** Every [set] still ahead of a thread, on the paths the answers allow,
    stores settled values. *)
Fixpoint truthful {A : Type} (p : prog A) : Prop :=
  match p with
  | Ret _ => True
  | RLocked k => forall c, truthful (k c)
  | Locked setter k =>
      (forall c, within c -> within (setter c) /\ grows c (setter c)) /\ truthful k
  | Ext c k => truthful (k (answer c))
  end.

End Settled.

(** A runtime that changes its mind about the version between two calls. *)
Definition upgraded : sys (list response) :=
  fresh [(["v1.13.4"], None); (["v1.14.0"], None)].

(** A runtime with one answer per question, and no state. *)
Definition steady_answer (c : call) : response :=
  match c with
  | CallInspect _ _ => (["32769"], None)
  | CallCombinedOutputLines _ => (["v1.13.4"], None)
  | _ => ([], None)
  end.

#[export] Instance Steady : Runtime unit := {|
  inspect name format w := (steady_answer (CallInspect name format), w);
  copyTo _ _ _ w := (None, w);
  copyFrom _ _ _ w := (None, w);
  combinedOutputLines cmd w := (steady_answer (CallCombinedOutputLines cmd), w);
  runLoggingOutputOnFail _ w := (None, w);
  runCmd _ w := (None, w)
|}.

(** Two threads taking turns step by step, and one after the other. *)
Definition raceOrder : list nat := [0; 1; 0; 1; 0; 1]%nat.

Definition inTurn : list nat := [0; 0; 0; 1; 1; 1]%nat.

(** ** Reading the calls and the cache *)

(** [Node.Name], which is also what [Node.String] prints. *)
Definition Name (n : Node) : string := name n.

(** The container a call is addressed to. *)
Definition call_target (c : call) : string :=
  match c with
  | CallInspect containerNameOrID _ => containerNameOrID
  | CallCopyTo _ containerNameOrID _ => containerNameOrID
  | CallCopyFrom containerNameOrID _ _ => containerNameOrID
  | CallCombinedOutputLines cmd => container cmd
  | CallRunLoggingOutputOnFail cmd => container cmd
  | CallRun cmd => container cmd
  end.

#[export] Instance op_eq_dec : EqDecision op.
Proof. solve_decision. Defined.

(** The four operations that go through the cache. *)
Definition is_query (o : op) : bool :=
  match o with
  | OpKubeVersion | OpIP | OpPorts _ | OpRole => true
  | _ => false
  end.

(** The test each query makes first: its field of the cache is set. *)
Definition cached (c : nodeCache) (o : op) : bool :=
  match o with
  | OpKubeVersion => negb (String.eqb (kubernetesVersion c) "")
  | OpIP => negb (String.eqb (ip c) "")
  | OpPorts p => snd (HostPort c p)
  | OpRole => negb (String.eqb (role c) "")
  | _ => false
  end.

(** Every byte of [s] is in [cutset]. *)
Fixpoint only_bytes (cutset s : string) : bool :=
  match s with
  | EmptyString => true
  | String c rest => strings.contains_byte cutset c && only_bytes cutset rest
  end.

(** Two environments agree on the six variables [getProxyDetails] reads. *)
Definition same_proxy_variables (env env' : gmap string string) : Prop :=
  forall name, name ∈ proxyEnvs ->
    os.Getenv env name = os.Getenv env' name /\
    os.Getenv env (strings.ToLower name) = os.Getenv env' (strings.ToLower name).

(** Two overlapping [KubeVersion] calls in front of a runtime that
    answers [v1] first and [v2] next. *)
Definition twoVersions (v1 v2 : string) : sys (list response) :=
  fresh [([v1], None); ([v2], None)].

Definition twoKubeVersionCalls
           (Sprintf : string -> list fmtarg -> string) (NodeRoleKey : string)
           (n : Node) : list (prog outcome) :=
  map (invoke Sprintf NodeRoleKey n) [OpKubeVersion; OpKubeVersion].

(** The role in the cache has no single quote at either end. *)
Definition role_is_trimmed (c : nodeCache) : Prop := strings.Trim (role c) "'" = role c.

Section Effect.

Variable Sprintf : string -> list fmtarg -> string.
Variable NodeRoleKey : string.
Variable n : Node.
Variable answer : call -> response.

(** The [set] an operation makes on a miss when the runtime answers each
    question with [answer]: none unless the answer is one good line. *)
Definition store_answer (o : op) (c : nodeCache) : nodeCache :=
  match o with
  | OpKubeVersion =>
      match answer (catVersion n) with
      | ([line], None) => set_kubernetesVersion line c
      | _ => c
      end
  | OpIP =>
      match answer (inspectIP n) with
      | ([line], None) => set_ip line c
      | _ => c
      end
  | OpPorts p =>
      match answer (inspectPort Sprintf n p) with
      | ([line], None) =>
          match strconv.ParseInt line 10 32 with
          | (parsed, None) => set_port p (int32 parsed) c
          | _ => c
          end
      | _ => c
      end
  | OpRole =>
      match answer (inspectRole Sprintf NodeRoleKey n) with
      | ([line], None) => set_role (strings.Trim line "'") c
      | _ => c
      end
  | _ => c
  end.

(** What an operation does to the cache: nothing on a hit. *)
Definition effect (o : op) (c : nodeCache) : nodeCache :=
  if cached c o then c else store_answer o c.

End Effect.

(** ** More scripts for worked examples *)

Definition quotedIP : sys (list response) := fresh [(["'172.17.0.2'"], None)].

Definition emptyLine : sys (list response) := fresh [([""], None)].

Definition onlyQuotes : sys (list response) := fresh [(["''"], None)].

Definition roleLater : sys (list response) :=
  fresh [(["v1.13.4"], None); (["''worker'"], None)].

Definition withEditor : gmap string string := <["EDITOR" := "vi"]> lowerOnly.

Definition copyKubeadmConf : op := OpCopyTo "/tmp/kubeadm.conf" "/kind/kubeadm.conf".

Definition steadyStart : sys unit := mkSys emptyCache tt [].

(** What an operation on the example node returns, and the calls it makes. *)
Definition kindResult (o : op) (s : sys (list response)) : outcome :=
  fst (run (invoke plainSprintf roleKey kindNode o) s).

Definition kindCalls (o : op) (s : sys (list response)) : list (call * response) :=
  issued s (snd (run (invoke plainSprintf roleKey kindNode o) s)).

Definition nodeImage : string := "kindest/node.tar".

(** The calls of [LoadImageArchive] and of the two steps of [WriteFile]. *)
Definition importImage : call :=
  CallRun (SetStdin (Command kindNode "ctr"
                       ["--namespace=k8s.io"; "images"; "import"; "-"]) nodeImage).

Definition mkdirManifests : call :=
  CallRunLoggingOutputOnFail (Command kindNode "mkdir" ["-p"; "/kind/manifests"]).

Definition cpManifest : call :=
  CallRun (SetStdin (Command kindNode "cp" ["/dev/stdin"; cniManifest])
             (NewReader "kind: List")).


(** ** Calls that begin after another has returned *)

(** A step that is a call into the runtime. *)
Definition is_call {A : Type} (p : prog A) : bool :=
  match p with
  | Ext _ _ => true
  | _ => false
  end.

(** The threads that call into the runtime along a schedule, step by
    step: [schedule] again, keeping the index of each thread whose step
    is a call. *)
Fixpoint callers {W} `{Runtime W} {A : Type} (order : list nat)
         (pool : list (prog A)) (s : sys W) : list nat :=
  match order with
  | [] => []
  | i :: order' =>
      match pool !! i with
      | Some p =>
          match thread_step p s with
          | Some (p', s') =>
              if is_call p then i :: callers order' (<[i := p']> pool) s'
              else callers order' (<[i := p']> pool) s'
          | None => callers order' pool s
          end
      | None => callers order' pool s
      end
  end.

(** What a query returns when its field is set. *)
Definition hit_outcome (c : nodeCache) (o : op) : outcome :=
  match o with
  | OpKubeVersion => OutString (kubernetesVersion c) None
  | OpIP => OutString (ip c) None
  | OpPorts p => OutPort (fst (HostPort c p)) None
  | OpRole => OutString (role c) None
  | _ => OutErr None
  end.

(** The cache [c] holds [out] for the query [o]: a call of [o] that reads
    [c] returns [out] from it. *)
Definition remembered (c : nodeCache) (o : op) (out : outcome) : Prop :=
  cached c o = true /\ hit_outcome c o = out.

(** [out] is a success of the query [o] that leaves its field set: a nil
    error, and for a string a value that is not empty. *)
Definition populates (o : op) (out : outcome) : bool :=
  match o, out with
  | (OpKubeVersion | OpIP | OpRole), OutString v None => negb (String.eqb v "")
  | OpPorts _, OutPort _ None => true
  | _, _ => false
  end.

(** Wherever the thread [p] of a call of [o] returns a success that
    populates, the cache of that moment holds what it returns; [c] is the
    cache now, the steps ahead meet whatever cache is there by then. *)
Fixpoint lands (o : op) (p : prog outcome) (c : nodeCache) : Prop :=
  match p with
  | Ret out => populates o out = true -> remembered c o out
  | RLocked k => forall c', lands o (k c') c'
  | Locked setter k => forall c', lands o k (setter c')
  | Ext _ k => forall r c', lands o (k r) c'
  end.

(** Calls that overlap, from the state [s0].  The operations [ops] are
    called on one handle, one thread each; [order1] runs them up to some
    moment and [order2] from there on.

    [later_calls_reuse]: when by that moment the call [j] of a query has
    returned a success that populates, and the call [i] of the same query
    has not begun, then [i], once it moves, returns that very outcome,
    and never calls into the runtime. *)
Definition later_calls_reuse {W} `{Runtime W}
           (Sprintf : string -> list fmtarg -> string) (NodeRoleKey : string)
           (n : Node) (s0 : sys W) : Prop :=
  forall (ops : list op) (order1 order2 : list nat) (i j : nat) (o : op) (out : outcome),
    let start := schedule order1 (map (invoke Sprintf NodeRoleKey n) ops) s0 in
    ops !! j = Some o -> fst start !! j = Some (Ret out) -> populates o out = true ->
    ops !! i = Some o -> i ∉ order1 ->
    (i ∈ order2 -> fst (schedule order2 (fst start) (snd start)) !! i = Some (Ret out))
    /\ i ∉ callers order2 (fst start) (snd start).

(** [set_fields_are_kept]: what is set in the cache at that moment is
    set to the same value from there on. *)
Definition set_fields_are_kept {W} `{Runtime W}
           (Sprintf : string -> list fmtarg -> string) (NodeRoleKey : string)
           (n : Node) (s0 : sys W) : Prop :=
  forall (ops : list op) (order1 order2 : list nat),
    let start := schedule order1 (map (invoke Sprintf NodeRoleKey n) ops) s0 in
    grows (cache_of (snd start))
          (cache_of (snd (schedule order2 (fst start) (snd start)))).

(** Three overlapping [KubeVersion] calls.  Threads 0 and 1 both miss;
    thread 0 asks, stores and returns; thread 1, which missed before
    that, asks and stores in its turn; thread 2 begins after all this. *)
Definition threeKubeVersionCalls : list op := [OpKubeVersion; OpKubeVersion; OpKubeVersion].

Definition firstReturns : list nat := [0; 1; 0; 0]%nat.

Definition secondStores : list nat := [1; 1]%nat.

Definition thirdCalls : list nat := [2]%nat.

(** The steady runtime after a first round of the four queries, each on
    a thread of its own. *)
Definition fourQueries : list op := [OpKubeVersion; OpIP; OpPorts 6443; OpRole].

Definition oneByOne : list nat := [0; 0; 0; 1; 1; 1; 2; 2; 2; 3; 3; 3]%nat.

Definition whenFirstReturns : list (prog outcome) * sys (list response) :=
  schedule firstReturns
           (map (invoke plainSprintf roleKey kindNode) threeKubeVersionCalls) upgraded.

(** The steady runtime: a [KubeVersion] call alone, then an [IP] call and
    a second [KubeVersion] call that overlap. *)
Definition versionAgain : list op := [OpKubeVersion; OpIP; OpKubeVersion].

Definition firstAlone : list nat := [0; 0; 0]%nat.

Definition thenTheRest : list nat := [1; 2; 1; 1]%nat.

Definition whenFirstAlone : list (prog outcome) * sys unit :=
  schedule firstAlone (map (invoke plainSprintf roleKey kindNode) versionAgain) steadyStart.

(** The steady runtime: the four queries one by one, then four more that
    overlap. *)
Definition twiceFourQueries : list op := fourQueries ++ fourQueries.

Definition whenAllAreSet : list (prog outcome) * sys unit :=
  schedule oneByOne (map (invoke plainSprintf roleKey kindNode) twiceFourQueries)
           steadyStart.

Definition fourOverlap : list nat := [4; 5; 6; 7; 7; 6; 5; 4; 4; 5; 6; 7]%nat.


(** * Properties *)

(** ** strconv.ParseInt in base 10 with 32 bits *)

Section ParseInt32.

Let cutoff : Z := strconv.maxUint64 / 10 + 1.
Let maxVal : Z := 2 ^ 32 - 1.

Lemma cutoff_val : cutoff = 1844674407370955162.
Proof. reflexivity. Qed.

Lemma maxVal_val : maxVal = 4294967295.
Proof. reflexivity. Qed.

Lemma byte_val_range c : 0 <= byte_val c < 256.
Proof.
  unfold byte_val. pose proof (N_ascii_bounded c) as Hb. lia.
Qed.

Lemma digits_value_ge s : forall acc v,
  0 <= acc -> digits_value s acc = Some v -> acc <= v.
Proof.
  induction s as [|c rest IH]; intros acc v Hacc; simpl.
  - intros [= <-]. lia.
  - unfold is_digit. destruct (48 <=? byte_val c) eqn:Hlo; [|discriminate].
    destruct (byte_val c <=? 57) eqn:Hhi; [|discriminate]. simpl.
    intros Hv. apply IH in Hv; lia.
Qed.

Lemma digits_value_none s : forall acc acc',
  digits_value s acc = None -> digits_value s acc' = None.
Proof.
  induction s as [|c rest IH]; intros acc acc'; simpl.
  - discriminate.
  - destruct (is_digit c); [apply IH | reflexivity].
Qed.

(** On a string of digits the loop computes the value, or saturates. *)
Lemma parseUint_loop_digits s0 s : forall n v,
  0 <= n <= maxVal ->
  digits_value s n = Some v ->
  strconv.parseUint_loop s0 10 cutoff maxVal s n =
    if v <=? maxVal then (v, None)
    else (maxVal, Some (strconv.rangeError "ParseUint" s0)).
Proof.
  induction s as [|c rest IH]; intros n v Hn; simpl.
  - intros [= <-]. destruct (Z.leb_spec n maxVal); [reflexivity | lia].
  - unfold is_digit.
    destruct (Z.leb_spec 48 (byte_val c)) as [Hlo|]; [|discriminate].
    destruct (Z.leb_spec (byte_val c) 57) as [Hhi|]; [|discriminate].
    cbn [andb]. intros Hv.
    destruct (Z.leb_spec 10 (byte_val c - 48)); [lia|].
    destruct (Z.leb_spec cutoff n) as [Hc|_].
    { pose proof cutoff_val. pose proof maxVal_val. lia. }
    assert (Hsmall : (n * 10 + (byte_val c - 48)) mod 2 ^ 64
                     = n * 10 + (byte_val c - 48)).
    { apply Z.mod_small. pose proof maxVal_val. lia. }
    rewrite Hsmall.
    destruct (Z.ltb_spec (n * 10 + (byte_val c - 48)) (n * 10)); [lia|].
    cbn [orb].
    destruct (Z.ltb_spec maxVal (n * 10 + (byte_val c - 48))) as [Hbig|Hok].
    + apply digits_value_ge in Hv; [|lia].
      destruct (Z.leb_spec v maxVal); [lia | reflexivity].
    + apply IH; [lia | exact Hv].
Qed.

(** Anything else is refused. *)
Lemma parseUint_loop_junk s0 s : forall n,
  digits_value s n = None ->
  snd (strconv.parseUint_loop s0 10 cutoff maxVal s n) <> None.
Proof.
  induction s as [|c rest IH]; intros n; simpl.
  - discriminate.
  - unfold is_digit.
    destruct (Z.leb_spec 48 (byte_val c)) as [Hlo|Hlo];
      destruct (Z.leb_spec (byte_val c) 57) as [Hhi|Hhi]; cbn [andb].
    + (* a digit: the loop stops with a range error or goes on *)
      intros Hv. destruct (Z.leb_spec 10 (byte_val c - 48)); [lia|].
      destruct (cutoff <=? n); [simpl; discriminate|].
      destruct (_ || _); [simpl; discriminate|].
      apply IH. revert Hv. apply digits_value_none.
    + (* above '9': a letter is a digit of a larger base, the rest is junk *)
      intros _.
      destruct (Z.leb_spec 97 (byte_val c)); destruct (Z.leb_spec (byte_val c) 122);
        destruct (Z.leb_spec 65 (byte_val c)); destruct (Z.leb_spec (byte_val c) 90);
        cbn [andb]; try (simpl; discriminate); try lia;
        match goal with
        | |- context [10 <=? ?d] => destruct (Z.leb_spec 10 d); [simpl; discriminate | lia]
        end.
    + (* below '0' *)
      intros _.
      destruct (Z.leb_spec 97 (byte_val c)); [lia|].
      destruct (Z.leb_spec 65 (byte_val c)); [lia|]. simpl. discriminate.
    + lia.
Qed.

Lemma ParseUint_digits s v :
  unsigned_value s = Some v ->
  strconv.ParseUint s 10 32 =
    if v <=? maxVal then (v, None)
    else (maxVal, Some (strconv.rangeError "ParseUint" s)).
Proof.
  destruct s as [|c rest]; [discriminate|].
  unfold unsigned_value, strconv.ParseUint. intros Hv.
  apply (parseUint_loop_digits _ _ 0 v); [pose proof maxVal_val; lia | exact Hv].
Qed.

(** A range error of [ParseUint] comes with the largest value. *)
Lemma parseUint_loop_saturates s0 s : forall n un f m,
  strconv.parseUint_loop s0 10 cutoff maxVal s n
    = (un, Some (strconv.mkNumError f m strconv.ErrRange)) ->
  un = maxVal.
Proof.
  induction s as [|c rest IH]; intros n un f m; simpl.
  - discriminate.
  - destruct (if (48 <=? byte_val c) && (byte_val c <=? 57) then _ else _) as [d|];
      [|discriminate].
    destruct (10 <=? d); [discriminate|].
    destruct (cutoff <=? n); [now intros [= <- _ _]|].
    destruct (_ || _); [now intros [= <- _ _]|]. apply IH.
Qed.

Lemma ParseUint_saturates s un f m :
  strconv.ParseUint s 10 32 = (un, Some (strconv.mkNumError f m strconv.ErrRange)) ->
  un = maxVal.
Proof.
  destruct s as [|c rest]; [discriminate|].
  unfold strconv.ParseUint. apply parseUint_loop_saturates.
Qed.

Lemma ParseUint_junk s :
  unsigned_value s = None -> snd (strconv.ParseUint s 10 32) <> None.
Proof.
  destruct s as [|c rest]; [discriminate|].
  unfold unsigned_value, strconv.ParseUint. apply parseUint_loop_junk.
Qed.

Lemma unsigned_value_nonneg s v : unsigned_value s = Some v -> 0 <= v.
Proof.
  destruct s; [discriminate|]. unfold unsigned_value.
  apply digits_value_ge. lia.
Qed.

Ltac zcases :=
  repeat match goal with
    | |- context [Z.leb ?a ?b] => destruct (Z.leb_spec a b)
    | |- context [Z.ltb ?a ?b] => destruct (Z.ltb_spec a b)
    end; cbn [andb orb negb]; try reflexivity; try lia.

(** [ParseInt] as a base-10 signed 32-bit parser: a well-formed integer
    is returned when it fits, and is a range error when it does not. *)
Lemma ParseInt_decimal s v :
  decimal_value s = Some v ->
  strconv.ParseInt s 10 32 =
    if (- 2 ^ 31 <=? v) && (v <? 2 ^ 31) then (v, None)
    else (if v <? 0 then - 2 ^ 31 else 2 ^ 31 - 1,
          Some (strconv.rangeError "ParseInt" s)).
Proof.
  destruct s as [|c rest]; [discriminate|].
  unfold decimal_value, strconv.ParseInt.
  pose proof maxVal_val as Hmax. fold maxVal.
  destruct (byte_eqb c "+"); [|destruct (byte_eqb c "-")].
  - intros Hu. pose proof (unsigned_value_nonneg _ _ Hu).
    rewrite (ParseUint_digits _ _ Hu).
    destruct (Z.leb_spec v maxVal); cbn [negb andb strconv.rangeError]; zcases.
  - destruct (unsigned_value rest) as [u|] eqn:Hu; [|discriminate].
    intros [= <-]. pose proof (unsigned_value_nonneg _ _ Hu).
    rewrite (ParseUint_digits _ _ Hu).
    destruct (Z.leb_spec u maxVal); cbn [negb andb strconv.rangeError]; zcases.
  - intros Hu. pose proof (unsigned_value_nonneg _ _ Hu).
    rewrite (ParseUint_digits _ _ Hu).
    destruct (Z.leb_spec v maxVal); cbn [negb andb strconv.rangeError]; zcases.
Qed.

Lemma ParseInt_junk s :
  decimal_value s = None -> snd (strconv.ParseInt s 10 32) <> None.
Proof.
  destruct s as [|c rest]; [simpl; discriminate|].
  unfold decimal_value, strconv.ParseInt.
  assert (Hbad : forall neg t, unsigned_value t = None ->
    snd (let '(un, err) := strconv.ParseUint t 10 32 in
         match err with
         | Some {| strconv.Err := strconv.ErrSyntax |} =>
             (0, Some (strconv.syntaxError "ParseInt" (String c rest)))
         | _ =>
             let cutoff := 2 ^ (32 - 1) in
             if negb neg && (cutoff <=? un)
             then (cutoff - 1, Some (strconv.rangeError "ParseInt" (String c rest)))
             else if neg && (cutoff <? un)
             then (- cutoff, Some (strconv.rangeError "ParseInt" (String c rest)))
             else (if neg then - un else un, None)
         end) <> None).
  { intros neg t Ht. pose proof (ParseUint_junk _ Ht) as Hj.
    pose proof (ParseUint_saturates t) as Hsat.
    destruct (strconv.ParseUint t 10 32) as [un [[f m [|]]|]]; simpl in *.
    - discriminate.
    - specialize (Hsat _ _ _ eq_refl). subst un.
      destruct neg; simpl; discriminate.
    - congruence. }
  destruct (byte_eqb c "+"); [|destruct (byte_eqb c "-")].
  - apply (Hbad false).
  - destruct (unsigned_value rest) eqn:Hu; [discriminate|]. intros _.
    now apply (Hbad true).
  - apply (Hbad false).
Qed.

(** The port that [Ports] stores is the parsed number itself. *)
Lemma ParseInt_in_int32 s v :
  strconv.ParseInt s 10 32 = (v, None) -> decimal_value s = Some v /\ in_int32 v.
Proof.
  intros Hp. destruct (decimal_value s) as [u|] eqn:Hd.
  - rewrite (ParseInt_decimal _ _ Hd) in Hp. unfold in_int32.
    destruct (Z.leb_spec (- 2 ^ 31) u); destruct (Z.ltb_spec u (2 ^ 31));
      cbn [andb] in Hp; try discriminate.
    injection Hp as ->. split; [reflexivity | lia].
  - apply ParseInt_junk in Hd. rewrite Hp in Hd. now elim Hd.
Qed.

Lemma int32_id v : in_int32 v -> int32 v = v.
Proof.
  unfold in_int32, int32. intros Hv.
  rewrite Z.mod_small; lia.
Qed.

End ParseInt32.

(** ** filepath.Clean never runs out of fuel *)

Lemma copy_element_shorter path : forall out,
  (String.length (fst (filepath.copy_element path out)) <= String.length path)%nat.
Proof.
  induction path as [|c rest IH]; intros out; simpl.
  - lia.
  - destruct (filepath.IsPathSeparator c); simpl; [lia|].
    specialize (IH (c :: out)). lia.
Qed.

(** Once the fuel covers what is left of the path, more fuel changes
    nothing: the loop ends because the path does. *)
Lemma clean_loop_fuel fuel : forall fuel' rooted path out dotdot,
  (String.length path <= fuel)%nat -> (String.length path <= fuel')%nat ->
  filepath.clean_loop fuel rooted path out dotdot
  = filepath.clean_loop fuel' rooted path out dotdot.
Proof.
  induction fuel as [|fuel IH]; intros fuel' rooted path out dotdot Hf Hf'.
  - destruct path; [|simpl in Hf; lia]. destruct fuel'; reflexivity.
  - destruct fuel' as [|fuel'].
    { destruct path; [reflexivity | simpl in Hf'; lia]. }
    destruct path as [|c rest]; [reflexivity|].
    simpl in Hf, Hf'. cbn [filepath.clean_loop].
    destruct (filepath.IsPathSeparator c) eqn:Hsep; [apply IH; lia|].
    destruct (byte_eqb c "." && filepath.starts_sep_or_empty rest); [apply IH; lia|].
    assert (Hcopy : forall o,
      (let '(path', out2) := filepath.copy_element (String c rest) o in
       filepath.clean_loop fuel rooted path' out2 dotdot)
      = (let '(path', out2) := filepath.copy_element (String c rest) o in
         filepath.clean_loop fuel' rooted path' out2 dotdot)).
    { intros o. cbn [filepath.copy_element]. rewrite Hsep.
      pose proof (copy_element_shorter rest (c :: o)) as Hlen.
      destruct (filepath.copy_element rest (c :: o)) as [path' out2].
      simpl in Hlen. apply IH; lia. }
    destruct rest as [|c2 rest2]; [apply Hcopy|].
    simpl in Hf, Hf'.
    destruct (byte_eqb c "." && byte_eqb c2 "." && filepath.starts_sep_or_empty rest2);
      [|apply Hcopy].
    destruct (dotdot <? length out)%nat; [apply IH; lia|].
    destruct (negb rooted); apply IH; lia.
Qed.

(** ** The cache only grows *)

Lemma grows_refl c : grows c c.
Proof. unfold grows; auto. Qed.

Lemma grows_trans c1 c2 c3 : grows c1 c2 -> grows c2 c3 -> grows c1 c3.
Proof.
  intros (Kv1 & Ip1 & Ro1 & Po1) (Kv2 & Ip2 & Ro2 & Po2). repeat split.
  - intros Hs. rewrite <- (Kv1 Hs). apply Kv2. now rewrite (Kv1 Hs).
  - intros Hs. rewrite <- (Ip1 Hs). apply Ip2. now rewrite (Ip1 Hs).
  - intros Hs. rewrite <- (Ro1 Hs). apply Ro2. now rewrite (Ro1 Hs).
  - intros p h Hp. apply Po2, Po1, Hp.
Qed.

Lemma HostPort_set_port c p h q :
  HostPort (set_port p h c) q = if decide (p = q) then (h, true) else HostPort c q.
Proof.
  unfold HostPort, set_port; simpl.
  rewrite lookup_insert. destruct (decide (p = q)) as [->|Hne].
  - reflexivity.
  - destruct (ports c); [reflexivity | now rewrite lookup_empty].
Qed.

Lemma grows_set_kubernetesVersion c v :
  kubernetesVersion c = "" -> grows c (set_kubernetesVersion v c).
Proof. intros Hc. unfold grows; simpl. rewrite Hc. tauto. Qed.

Lemma grows_set_ip c v : ip c = "" -> grows c (set_ip v c).
Proof. intros Hc. unfold grows; simpl. rewrite Hc. tauto. Qed.

Lemma grows_set_role c v : role c = "" -> grows c (set_role v c).
Proof. intros Hc. unfold grows; simpl. rewrite Hc. tauto. Qed.

Lemma grows_set_port c p h z :
  HostPort c p = (z, false) -> grows c (set_port p h c).
Proof.
  intros Hc. unfold grows. repeat split; try (simpl; tauto).
  intros q k Hq. rewrite HostPort_set_port.
  destruct (decide (p = q)) as [->|]; [congruence | exact Hq].
Qed.

Create HintDb cache_grows.

#[export] Hint Resolve grows_refl grows_set_kubernetesVersion grows_set_ip
  grows_set_role grows_set_port : cache_grows.

Section Properties.

Context {W : Type} `{Runtime W}.
Variable Sprintf : string -> list fmtarg -> string.
Variable NodeRoleKey : string.

Lemma run_bind {A B} (m : prog A) (f : A -> prog B) (s : sys W) :
  run (bind m f) s = let '(a, s') := run m s in run (f a) s'.
Proof.
  revert s. induction m as [a | k IH | setter k IH | c k IH]; intros s; simpl.
  - reflexivity.
  - apply IH.
  - apply IH.
  - destruct (perform c (world s)) as [r w']. apply IH.
Qed.

Lemma issued_same (s : sys W) : issued s s = [].
Proof. unfold issued. apply drop_all. Qed.

Lemma issued_app (c : nodeCache) (w : W) (s : sys W) l :
  issued s (mkSys c w (trace s ++ l)) = l.
Proof. unfold issued; simpl. apply drop_app_length. Qed.

Lemma issued_app2 (c : nodeCache) (w : W) (s : sys W) l1 l2 :
  issued s (mkSys c w ((trace s ++ l1) ++ l2)) = l1 ++ l2.
Proof. rewrite <- app_assoc. apply issued_app. Qed.

(** One step of case analysis along an operation's body. *)
Ltac step_run :=
  match goal with
  | |- context [String.eqb ?a ?b] => destruct (String.eqb_spec a b)
  | |- context [perform ?c ?w] =>
      let P := fresh "Hperform" in
      destruct (perform c w) as [[? [?|]] ?] eqn:P
  | |- context [Nat.eqb (length ?l) 1] => destruct (Nat.eqb_spec (length l) 1)
  | |- context [strconv.ParseInt ?s ?b ?z] =>
      let P := fresh "Hparse" in
      destruct (strconv.ParseInt s b z) as [? [?|]] eqn:P
  | |- context [HostPort ?c ?p] =>
      let P := fresh "Hport" in
      destruct (HostPort c p) as [? [|]] eqn:P
  end; cbn [run bind negb fst snd cache_of world trace].

Ltac unfold_ops :=
  unfold KubeVersion, IP, Ports, Role, WriteFile, ImageInspect, LoadImageArchive,
    CopyTo, CopyFrom,
    cache.KubeVersion, cache.IP, cache.HostPort, cache.Role, cache.set,
    docker.Inspect, docker.CopyTo, docker.CopyFrom,
    exec.CombinedOutputLines, exec.RunLoggingOutputOnFail, exec.Run;
  cbn [run bind negb fst snd cache_of world trace].

Ltac crunch := unfold_ops; repeat step_run.

(** Settle a goal [run op s = (r, s') -> ...] along every path of [op]. *)
Ltac by_paths :=
  crunch; try (let E := fresh "Hrun" in intros E; simplify_eq);
  rewrite ?issued_same, ?issued_app, ?issued_app2;
  intros; simplify_eq; cbn [cache_of world trace fst snd] in *.

(** *** Hits *)

Lemma KubeVersion_hit n (s : sys W) :
  kubernetesVersion (cache_of s) <> "" ->
  run (KubeVersion n) s = ((kubernetesVersion (cache_of s), None), s).
Proof. by_paths; congruence. Qed.

Lemma IP_hit n (s : sys W) :
  ip (cache_of s) <> "" -> run (IP n) s = ((ip (cache_of s), None), s).
Proof. by_paths; congruence. Qed.

Lemma Role_hit n (s : sys W) :
  role (cache_of s) <> "" ->
  run (Role Sprintf NodeRoleKey n) s = ((role (cache_of s), None), s).
Proof. by_paths; congruence. Qed.

Lemma Ports_hit n p h (s : sys W) :
  HostPort (cache_of s) p = (h, true) ->
  run (Ports Sprintf n p) s = ((h, None), s).
Proof. by_paths; congruence. Qed.

(** *** What a success leaves in the cache *)

Lemma KubeVersion_ok n (s s' : sys W) v :
  run (KubeVersion n) s = ((v, None), s') -> kubernetesVersion (cache_of s') = v.
Proof. revert s'. by_paths; reflexivity. Qed.

Lemma IP_ok n (s s' : sys W) v :
  run (IP n) s = ((v, None), s') -> ip (cache_of s') = v.
Proof. revert s'. by_paths; reflexivity. Qed.

Lemma Role_ok n (s s' : sys W) v :
  run (Role Sprintf NodeRoleKey n) s = ((v, None), s') -> role (cache_of s') = v.
Proof. revert s'. by_paths; reflexivity. Qed.

Lemma Ports_ok n p (s s' : sys W) h :
  run (Ports Sprintf n p) s = ((h, None), s') -> HostPort (cache_of s') p = (h, true).
Proof.
  revert s'. by_paths; try assumption.
  rewrite HostPort_set_port. now destruct (decide (p = p)).
Qed.

(** *** Every operation lets the cache grow *)

Lemma invoke_grows n o (s : sys W) :
  grows (cache_of s) (cache_of (snd (run (invoke Sprintf NodeRoleKey n o) s))).
Proof.
  destruct o; unfold invoke; crunch; eauto with cache_grows.
Qed.

Lemma run_ops_grows n l : forall s : sys W,
  grows (cache_of s) (cache_of (run_ops Sprintf NodeRoleKey n l s)).
Proof.
  induction l as [|o l IH]; intros s; simpl.
  - apply grows_refl.
  - eapply grows_trans; [apply invoke_grows | apply IH].
Qed.

(** *** The four lazy queries *)

(** Calls made one after the other.  Once a first call has succeeded
    and left its field set, every later call of the same operation,
    whatever operations of the handle ran in between and whatever the
    runtime would answer now, returns the same value with a nil error,
    leaves the state as it found it and issues no external call.  For
    [Ports] a success always leaves the entry of its port set. *)
Lemma cached_value_is_reused_in_turn (n : Node) (l : list op) (s s1 : sys W) :
  let s2 := run_ops Sprintf NodeRoleKey n l s1 in
  (forall v, run (KubeVersion n) s = ((v, None), s1) ->
             kubernetesVersion (cache_of s1) <> "" ->
             run (KubeVersion n) s2 = ((v, None), s2)
             /\ issued s2 (snd (run (KubeVersion n) s2)) = []) /\
  (forall v, run (IP n) s = ((v, None), s1) ->
             ip (cache_of s1) <> "" ->
             run (IP n) s2 = ((v, None), s2)
             /\ issued s2 (snd (run (IP n) s2)) = []) /\
  (forall v, run (Role Sprintf NodeRoleKey n) s = ((v, None), s1) ->
             role (cache_of s1) <> "" ->
             run (Role Sprintf NodeRoleKey n) s2 = ((v, None), s2)
             /\ issued s2 (snd (run (Role Sprintf NodeRoleKey n) s2)) = []) /\
  (forall p h, run (Ports Sprintf n p) s = ((h, None), s1) ->
               run (Ports Sprintf n p) s2 = ((h, None), s2)
               /\ issued s2 (snd (run (Ports Sprintf n p) s2)) = []).
Proof.
  intros s2. destruct (run_ops_grows n l s1) as (Hkv & Hip & Hrole & Hports).
  fold s2 in Hkv, Hip, Hrole, Hports.
  assert (Hquiet : forall {A} (p : prog A) (a : A),
            run p s2 = (a, s2) -> run p s2 = (a, s2) /\ issued s2 (snd (run p s2)) = []).
  { intros A p a Hp. split; [exact Hp|]. rewrite Hp. apply issued_same. }
  repeat apply conj.
  - intros v Hrun Hset. apply Hquiet.
    apply KubeVersion_ok in Hrun. subst v.
    rewrite <- (Hkv Hset). apply KubeVersion_hit. now rewrite (Hkv Hset).
  - intros v Hrun Hset. apply Hquiet.
    apply IP_ok in Hrun. subst v.
    rewrite <- (Hip Hset). apply IP_hit. now rewrite (Hip Hset).
  - intros v Hrun Hset. apply Hquiet.
    apply Role_ok in Hrun. subst v.
    rewrite <- (Hrole Hset). apply Role_hit. now rewrite (Hrole Hset).
  - intros p h Hrun. apply Hquiet.
    apply Ports_ok in Hrun. apply Ports_hit, Hports, Hrun.
Qed.

(** C2. When the one external query of a call comes back without an
    error but with zero lines or with more than one, the call fails
    with the line-count error and returns the empty string, or -1 for
    [Ports]. *)
Theorem C2_wrong_line_count_is_an_error
        (n : Node) (p : Z) (s s' : sys W) (c : call) (lines : list string) :
  length lines <> 1%nat ->
  issued s s' = [(c, (lines, None))] ->
  (forall r, run (KubeVersion n) s = (r, s') ->
     r = ("", Some (errors.Errorf "file should only be one line, got %d lines"
                      [ArgInt (len lines)]))) /\
  (forall r, run (IP n) s = (r, s') ->
     r = ("", Some (errors.Errorf "file should only be one line, got %d lines"
                      [ArgInt (len lines)]))) /\
  (forall r, run (Ports Sprintf n p) s = (r, s') ->
     r = (-1, Some (errors.Errorf "file should only be one line, got %d lines"
                      [ArgInt (len lines)]))) /\
  (forall r, run (Role Sprintf NodeRoleKey n) s = (r, s') ->
     r = ("", Some (errors.Errorf "%q label should only be one line, got %d lines"
                      [ArgStr NodeRoleKey; ArgInt (len lines)]))).
Proof.
  intros Hlen Hissued.
  repeat split; intros r Hrun; revert Hissued; revert Hrun;
    by_paths; congruence.
Qed.

(** *** Misses: one query, and what a good answer gives *)

Lemma KubeVersion_miss n (s : sys W) :
  kubernetesVersion (cache_of s) = "" ->
  exists ans,
    issued s (snd (run (KubeVersion n) s)) = [(catVersion n, ans)] /\
    forall line, ans = ([line], None) -> fst (run (KubeVersion n) s) = (line, None).
Proof.
  intros Hc. exists (fst (perform (catVersion n) (world s))).
  unfold catVersion. by_paths; try congruence;
    (split; [reflexivity | intros; simplify_eq; try reflexivity]).
Qed.

Lemma IP_miss n (s : sys W) :
  ip (cache_of s) = "" ->
  exists ans,
    issued s (snd (run (IP n) s)) = [(inspectIP n, ans)] /\
    forall line, ans = ([line], None) -> fst (run (IP n) s) = (line, None).
Proof.
  intros Hc. exists (fst (perform (inspectIP n) (world s))).
  unfold inspectIP. by_paths; try congruence;
    (split; [reflexivity | intros; simplify_eq; try reflexivity]).
Qed.

Lemma Role_miss n (s : sys W) :
  role (cache_of s) = "" ->
  exists ans,
    issued s (snd (run (Role Sprintf NodeRoleKey n) s)) = [(inspectRole Sprintf NodeRoleKey n, ans)] /\
    forall line, ans = ([line], None) ->
      fst (run (Role Sprintf NodeRoleKey n) s) = (strings.Trim line "'", None).
Proof.
  intros Hc. exists (fst (perform (inspectRole Sprintf NodeRoleKey n) (world s))).
  unfold inspectRole. by_paths; try congruence;
    (split; [reflexivity | intros; simplify_eq; try reflexivity]).
Qed.

Lemma Ports_miss n p z (s : sys W) :
  HostPort (cache_of s) p = (z, false) ->
  exists ans,
    issued s (snd (run (Ports Sprintf n p) s)) = [(inspectPort Sprintf n p, ans)] /\
    forall line v, ans = ([line], None) -> decimal_value line = Some v ->
      in_int32 v -> fst (run (Ports Sprintf n p) s) = (v, None).
Proof.
  intros Hc. exists (fst (perform (inspectPort Sprintf n p) (world s))).
  unfold inspectPort. by_paths; try congruence;
    (split; [reflexivity | intros; simplify_eq]).
  - (* the text does not parse: impossible for a number that fits *)
    exfalso. cbn [hd] in *.
    match goal with
    | Hp : strconv.ParseInt _ _ _ = _, Hd : decimal_value _ = Some ?v,
      Hr : in_int32 ?v |- _ =>
        rewrite (ParseInt_decimal _ _ Hd) in Hp; unfold in_int32 in Hr;
        destruct (Z.leb_spec (- 2 ^ 31) v); destruct (Z.ltb_spec v (2 ^ 31));
        cbn [andb] in Hp; try lia; discriminate
    end.
  - cbn [hd] in *.
    match goal with
    | Hp : strconv.ParseInt _ _ _ = _, Hd : decimal_value _ = _ |- _ =>
        apply ParseInt_in_int32 in Hp; destruct Hp as [Hp Hr];
        rewrite Hd in Hp; injection Hp as <-
    end.
    now rewrite int32_id.
Qed.

(** C3. A call that returns an error leaves the cache as it was, with
    the queried field still unset; so the next call, from any state
    with that cache, asks the runtime again (exactly one call), and
    succeeds whenever the answer then is one good line. *)
Theorem C3_error_leaves_cache_unset (n : Node) (s s' : sys W) (e : error) :
  (forall v, run (KubeVersion n) s = ((v, Some e), s') ->
     cache_of s' = cache_of s /\ kubernetesVersion (cache_of s') = "" /\
     forall s2 : sys W, cache_of s2 = cache_of s' ->
       exists ans,
         issued s2 (snd (run (KubeVersion n) s2)) = [(catVersion n, ans)] /\
         forall line, ans = ([line], None) ->
           fst (run (KubeVersion n) s2) = (line, None)) /\
  (forall v, run (IP n) s = ((v, Some e), s') ->
     cache_of s' = cache_of s /\ ip (cache_of s') = "" /\
     forall s2 : sys W, cache_of s2 = cache_of s' ->
       exists ans,
         issued s2 (snd (run (IP n) s2)) = [(inspectIP n, ans)] /\
         forall line, ans = ([line], None) ->
           fst (run (IP n) s2) = (line, None)) /\
  (forall p v, run (Ports Sprintf n p) s = ((v, Some e), s') ->
     cache_of s' = cache_of s /\ snd (HostPort (cache_of s') p) = false /\
     forall s2 : sys W, cache_of s2 = cache_of s' ->
       exists ans,
         issued s2 (snd (run (Ports Sprintf n p) s2)) = [(inspectPort Sprintf n p, ans)] /\
         forall line h, ans = ([line], None) -> decimal_value line = Some h ->
           in_int32 h -> fst (run (Ports Sprintf n p) s2) = (h, None)) /\
  (forall v, run (Role Sprintf NodeRoleKey n) s = ((v, Some e), s') ->
     cache_of s' = cache_of s /\ role (cache_of s') = "" /\
     forall s2 : sys W, cache_of s2 = cache_of s' ->
       exists ans,
         issued s2 (snd (run (Role Sprintf NodeRoleKey n) s2))
           = [(inspectRole Sprintf NodeRoleKey n, ans)] /\
         forall line, ans = ([line], None) ->
           fst (run (Role Sprintf NodeRoleKey n) s2) = (strings.Trim line "'", None)).
Proof.
  assert (Hkv : forall v, run (KubeVersion n) s = ((v, Some e), s') ->
            cache_of s' = cache_of s /\ kubernetesVersion (cache_of s') = "").
  { intros v. by_paths; auto. }
  assert (Hip : forall v, run (IP n) s = ((v, Some e), s') ->
            cache_of s' = cache_of s /\ ip (cache_of s') = "").
  { intros v. by_paths; auto. }
  assert (Hports : forall p v, run (Ports Sprintf n p) s = ((v, Some e), s') ->
            cache_of s' = cache_of s /\ snd (HostPort (cache_of s') p) = false).
  { intros p v. by_paths; split; try reflexivity; congruence. }
  assert (Hrole : forall v, run (Role Sprintf NodeRoleKey n) s = ((v, Some e), s') ->
            cache_of s' = cache_of s /\ role (cache_of s') = "").
  { intros v. by_paths; auto. }
  repeat apply conj.
  - intros v Hrun. destruct (Hkv v Hrun) as [Hsame Hunset].
    repeat split; try assumption.
    intros s2 Hs2. apply KubeVersion_miss. congruence.
  - intros v Hrun. destruct (Hip v Hrun) as [Hsame Hunset].
    repeat split; try assumption.
    intros s2 Hs2. apply IP_miss. congruence.
  - intros p v Hrun. destruct (Hports p v Hrun) as [Hsame Hunset].
    repeat split; try assumption.
    intros s2 Hs2. rewrite <- Hs2 in Hunset.
    destruct (HostPort (cache_of s2) p) as [z b] eqn:Hp. simpl in Hunset. subst b.
    eapply Ports_miss, Hp.
  - intros v Hrun. destruct (Hrole v Hrun) as [Hsame Hunset].
    repeat split; try assumption.
    intros s2 Hs2. apply Role_miss. congruence.
Qed.

(** C6. Every failing path of [Ports] returns -1 with its error: a
    failed query, a wrong number of lines, a line that is not a number.
    A single line "32769" gives 32769 and a nil error. *)
Theorem C6_Ports_sentinel_on_failure
        (n : Node) (p : Z) (s s' : sys W) (r : Z * option error) :
  run (Ports Sprintf n p) s = (r, s') ->
  (snd r <> None -> fst r = -1) /\
  (forall c lines e, issued s s' = [(c, (lines, Some e))] ->
     r = (-1, Some (errors.Wrap e "failed to get file"))) /\
  (forall c lines, issued s s' = [(c, (lines, None))] -> length lines <> 1%nat ->
     r = (-1, Some (errors.Errorf "file should only be one line, got %d lines"
                      [ArgInt (len lines)]))) /\
  (forall c line, issued s s' = [(c, ([line], None))] -> decimal_value line = None ->
     exists e, r = (-1, Some (errors.Wrap (errors.NumError e) "failed to get file"))) /\
  (forall c, issued s s' = [(c, (["32769"], None))] -> r = (32769, None)).
Proof.
  intros Hrun. repeat apply conj.
  - revert Hrun. by_paths; congruence.
  - intros c lines e. revert Hrun. by_paths; congruence.
  - intros c lines. revert Hrun. by_paths; congruence.
  - intros c line. revert Hrun. by_paths; cbn [hd] in *; eauto.
    exfalso.
    match goal with
    | Hd : decimal_value _ = None |- _ => apply ParseInt_junk in Hd; apply Hd
    end.
    match goal with Hp : strconv.ParseInt _ _ _ = _ |- _ => now rewrite Hp end.
  - intros c. revert Hrun. by_paths; cbn [hd] in *;
      match goal with
      | Hp : strconv.ParseInt _ _ _ = _ |- _ => vm_compute in Hp; simplify_eq
      end.
    reflexivity.
Qed.

(** C7. The one line of the role query is returned, and cached, without
    the single quotes around it: "'control-plane'" gives "control-plane". *)
Theorem C7_Role_strips_quotes
        (n : Node) (s s' : sys W) (r : string * option error) (c : call) :
  run (Role Sprintf NodeRoleKey n) s = (r, s') ->
  (forall line, issued s s' = [(c, ([line], None))] ->
     r = (strings.Trim line "'", None) /\ role (cache_of s') = strings.Trim line "'") /\
  (issued s s' = [(c, (["'control-plane'"], None))] ->
     r = ("control-plane", None) /\ role (cache_of s') = "control-plane").
Proof.
  intros Hrun.
  assert (Hgen : forall line, issued s s' = [(c, ([line], None))] ->
     r = (strings.Trim line "'", None) /\ role (cache_of s') = strings.Trim line "'").
  { intros line. revert Hrun. by_paths; try congruence. split; reflexivity. }
  split; [exact Hgen|]. intros Hi. apply (Hgen _ Hi).
Qed.

(** C10. [Ports] reads its line as a base-10 signed 32-bit integer: a
    well-formed integer that fits is returned as it is, one outside the
    int32 range is refused with -1 and a range error, and nothing is
    cached. *)
Theorem C10_Ports_rejects_out_of_range
        (n : Node) (p : Z) (s s' : sys W) (r : Z * option error) (c : call)
        (line : string) (v : Z) :
  run (Ports Sprintf n p) s = (r, s') ->
  issued s s' = [(c, ([line], None))] ->
  decimal_value line = Some v ->
  (in_int32 v -> r = (v, None)) /\
  (~ in_int32 v ->
     r = (-1, Some (errors.Wrap
                      (errors.NumError (strconv.rangeError "ParseInt" line))
                      "failed to get file"))
     /\ cache_of s' = cache_of s).
Proof.
  intros Hrun Hi Hd. revert Hi. revert Hrun.
  by_paths; cbn [hd] in *; try congruence;
    match goal with
    | Hp : strconv.ParseInt _ _ _ = _ |- _ =>
        rewrite (ParseInt_decimal _ _ Hd) in Hp
    end; unfold in_int32;
    destruct (Z.leb_spec (- 2 ^ 31) v); destruct (Z.ltb_spec v (2 ^ 31));
    cbn [andb] in *; simplify_eq; (split; [intros; try lia | intros Hn; try lia]);
    try (rewrite int32_id by (unfold in_int32; lia)); auto.
Qed.

(** C5. [WriteFile] first runs [mkdir -p] on [filepath.Dir dest].  When
    that fails nothing else is run and its error comes back wrapped,
    with [dest] in the message; only when it succeeds is [cp /dev/stdin
    dest] run with [content] as standard input, and that command's
    error is the result. *)
Theorem C5_WriteFile_mkdir_then_cp
        (n : Node) (dest content : string) (s s' : sys W) (err : option error) :
  run (WriteFile n dest content) s = (err, s') ->
  let mkdir :=
    CallRunLoggingOutputOnFail
      {| container := name n; command := "mkdir";
         args := ["-p"; filepath.Dir dest]; stdin := None |} in
  let cp :=
    CallRun {| container := name n; command := "cp";
               args := ["/dev/stdin"; dest]; stdin := Some content |} in
  (exists e, issued s s' = [(mkdir, ([], Some e))] /\
             err = Some (errors.Wrapf e "failed to create directory %s" [ArgStr dest]))
  \/ (exists r, issued s s' = [(mkdir, ([], None)); (cp, ([], r))] /\ err = r).
Proof.
  unfold WriteFile, exec.RunLoggingOutputOnFail, exec.Run, Command, SetStdin, NewReader.
  cbn [run bind perform fst snd cache_of world trace container command args stdin].
  destruct (runLoggingOutputOnFail _ (world s)) as [[e|] w1];
    cbn [run bind perform fst snd cache_of world trace].
  - intros [= <- <-]. left. exists e. now rewrite issued_app.
  - destruct (runCmd _ w1) as [r w2]; cbn [run fst snd].
    intros [= <- <-]. right. exists r. now rewrite issued_app2.
Qed.

(** C4, as the code has it.  No operation swallows an error, and each
    returns the error of the call that failed, with the message of its
    own or as it is.  A call that came back with an error is the last
    call of the operation.  [KubeVersion], [IP] and [Ports] return that
    error wrapped with "failed to get file", [Role] wrapped with
    "failed to get %q label" and the label, [LoadImageArchive] wrapped
    with "failed to load image"; [WriteFile] wraps the error of its
    [mkdir] step with "failed to create directory %s" and the
    destination, and hands on the error of its [cp] step as it is;
    [CopyTo], [CopyFrom] and [ImageInspect] hand on the runtime's error
    as it is.  The only other errors are those the four queries make
    themselves from one call that succeeded: the line-count error, and
    for [Ports] the error of [strconv.ParseInt] wrapped with "failed to
    get file". *)
Theorem C4_errors_wrapped_or_handed_on
        (n : Node) (o : op) (s s' : sys W) (out : outcome) :
  run (invoke Sprintf NodeRoleKey n o) s = (out, s') ->
  (forall c lines e0, (c, (lines, Some e0)) ∈ issued s s' ->
     last (issued s s') = Some (c, (lines, Some e0)) /\
     outcome_err out = Some
       match o with
       | OpKubeVersion | OpIP | OpPorts _ => errors.Wrap e0 "failed to get file"
       | OpRole => errors.Wrapf e0 "failed to get %q label" [ArgStr NodeRoleKey]
       | OpLoadImageArchive _ => errors.Wrap e0 "failed to load image"
       | OpWriteFile dest _ =>
           match c with
           | CallRunLoggingOutputOnFail _ =>
               errors.Wrapf e0 "failed to create directory %s" [ArgStr dest]
           | _ => e0
           end
       | OpCopyTo _ _ | OpCopyFrom _ _ | OpImageInspect _ => e0
       end) /\
  (forall e, outcome_err out = Some e ->
     (exists c lines e0, (c, (lines, Some e0)) ∈ issued s s')
     \/ (exists c lines,
           issued s s' = [(c, (lines, None))] /\
           match o with
           | OpKubeVersion | OpIP =>
               length lines <> 1%nat /\
               e = errors.Errorf "file should only be one line, got %d lines"
                     [ArgInt (len lines)]
           | OpPorts _ =>
               (length lines <> 1%nat /\
                e = errors.Errorf "file should only be one line, got %d lines"
                      [ArgInt (len lines)])
               \/ (exists line ne,
                     lines = [line] /\
                     snd (strconv.ParseInt line 10 32) = Some ne /\
                     e = errors.Wrap (errors.NumError ne) "failed to get file")
           | OpRole =>
               length lines <> 1%nat /\
               e = errors.Errorf "%q label should only be one line, got %d lines"
                     [ArgStr NodeRoleKey; ArgInt (len lines)]
           | _ => False
           end)).
Proof.
  destruct o; unfold invoke; crunch; cbn [outcome_err];
    intros Hrun; simplify_eq; cbn [outcome_err];
    rewrite ?issued_same, ?issued_app, ?issued_app2;
    cbn [app];
    (split; [intros ? ? ? Hin;
             repeat (apply elem_of_cons in Hin; destruct Hin as [Hin|Hin]);
             try (apply elem_of_nil in Hin; contradiction);
             simplify_eq; cbn [last]; split; reflexivity
            | intros ? He; simplify_eq]).
  all: try (left; do 3 eexists;
            first [apply list_elem_of_here
                  | apply list_elem_of_further, list_elem_of_here]).
  all: right; do 2 eexists; (split; [reflexivity|]).
  all: try (split; [assumption | reflexivity]).
  - right.
    match goal with
    | Hlen : length ?l = 1%nat |- _ =>
        destruct l as [|line [|]]; try discriminate Hlen
    end.
    cbn [hd] in *. eexists _, _. split; [reflexivity|].
    match goal with Hp : strconv.ParseInt _ _ _ = _ |- _ => rewrite Hp end.
    split; reflexivity.
  - left. split; [assumption | reflexivity].
Qed.

End Properties.

(** ** Proxy settings *)

Lemma proxy_step_lookup env details name k :
  Envs (proxy_step env details name) !! k =
    if decide (name = k)
    then match proxy_value env name with
         | Some v => Some v
         | None => Envs details !! k
         end
    else Envs details !! k.
Proof.
  unfold proxy_step, proxy_value.
  destruct (negb (String.eqb (os.Getenv env name) "")); simpl.
  { rewrite lookup_insert. now destruct (decide (name = k)). }
  destruct (negb (String.eqb (os.Getenv env (strings.ToLower name)) "")); simpl.
  { rewrite lookup_insert. now destruct (decide (name = k)). }
  now destruct (decide (name = k)).
Qed.

Lemma Getenv_empty env k :
  os.Getenv env k = "" <-> env !! k = None \/ env !! k = Some "".
Proof.
  unfold os.Getenv. destruct (env !! k) as [v|]; simpl.
  - split; [intros ->; now right | intros [|[= ->]]; [discriminate | reflexivity]].
  - split; [now left | reflexivity].
Qed.

Lemma Getenv_set env k v : env !! k = Some v -> os.Getenv env k = v.
Proof. unfold os.Getenv. now intros ->. Qed.

Lemma getProxyDetails_lookup env name :
  name ∈ proxyEnvs -> Envs (getProxyDetails env) !! name = proxy_value env name.
Proof.
  unfold getProxyDetails, proxyEnvs. cbn [fold_left].
  intros Hin. rewrite !proxy_step_lookup. cbn [Envs]. rewrite lookup_empty.
  apply list_elem_of_In in Hin. simpl in Hin.
  destruct Hin as [<-|[<-|[<-|[]]]];
    repeat (destruct (decide _) as [?|?]; try discriminate; try congruence);
    repeat (destruct (proxy_value _ _); try reflexivity).
Qed.

Lemma getProxyDetails_other env k :
  k ∉ proxyEnvs -> Envs (getProxyDetails env) !! k = None.
Proof.
  unfold getProxyDetails, proxyEnvs. cbn [fold_left].
  intros Hout. rewrite !proxy_step_lookup. cbn [Envs]. rewrite lookup_empty.
  repeat (destruct (decide _) as [<-|?];
          [exfalso; apply Hout; apply list_elem_of_In; simpl; tauto|]).
  reflexivity.
Qed.

(** C8. The mapping is a function of the environment alone.  For each of
    HTTP_PROXY, HTTPS_PROXY and NO_PROXY it holds the value of the
    upper-case variable when that is set and not empty, otherwise the
    value of the lower-case variable when that is set and not empty, and
    no entry when both are empty or not set; it holds no other name. *)
Theorem C8_getProxyDetails_prefers_upper_case
        (env : gmap string string) (name : string) :
  let found := Envs (getProxyDetails env) !! name in
  let upper := env !! name in
  let lower := env !! strings.ToLower name in
  (name ∈ proxyEnvs ->
     (forall v, upper = Some v -> v <> "" -> found = Some v) /\
     (forall v, upper = None \/ upper = Some "" ->
                lower = Some v -> v <> "" -> found = Some v) /\
     (upper = None \/ upper = Some "" -> lower = None \/ lower = Some "" ->
      found = None)) /\
  (name ∉ proxyEnvs -> found = None).
Proof.
  intros found upper lower. subst found upper lower. split.
  - intros Hin. rewrite (getProxyDetails_lookup _ _ Hin). unfold proxy_value.
    repeat apply conj.
    + intros v Hv Hne. rewrite (Getenv_set _ _ _ Hv).
      destruct (String.eqb_spec v ""); [contradiction | reflexivity].
    + intros v Hup Hlo Hne. apply Getenv_empty in Hup. rewrite Hup.
      rewrite (Getenv_set _ _ _ Hlo).
      destruct (String.eqb_spec v ""); [contradiction | reflexivity].
    + intros Hup Hlo. apply Getenv_empty in Hup, Hlo. now rewrite Hup, Hlo.
  - apply getProxyDetails_other.
Qed.

(** ** Concrete runs *)

Lemma C2_wrong_line_count_is_an_error_witness :
  (length (@nil string) <> 1%nat
   /\ issued noLines (snd (run (KubeVersion kindNode) noLines))
      = [(catVersion kindNode, ([], None))]
   /\ fst (run (KubeVersion kindNode) noLines)
      = ("", Some (errors.Errorf "file should only be one line, got %d lines" [ArgInt 0]))
   /\ fst (run (Ports plainSprintf kindNode 6443) noLines)
      = (-1, Some (errors.Errorf "file should only be one line, got %d lines" [ArgInt 0])))
  /\
  (length ["a"; "b"] <> 1%nat
   /\ issued twoLines (snd (run (IP kindNode) twoLines))
      = [(inspectIP kindNode, (["a"; "b"], None))]
   /\ fst (run (IP kindNode) twoLines)
      = ("", Some (errors.Errorf "file should only be one line, got %d lines" [ArgInt 2]))
   /\ fst (run (Role plainSprintf roleKey kindNode) twoLines)
      = ("", Some (errors.Errorf "%q label should only be one line, got %d lines"
                     [ArgStr roleKey; ArgInt 2]))).
Proof.
  assert (L0 : length (@nil string) <> 1%nat) by (simpl; lia).
  assert (L2 : length ["a"; "b"] <> 1%nat) by (simpl; lia).
  pose proof (C2_wrong_line_count_is_an_error plainSprintf roleKey kindNode 6443
                noLines (snd (run (KubeVersion kindNode) noLines))
                (catVersion kindNode) [] L0 eq_refl) as (Kv & _).
  pose proof (C2_wrong_line_count_is_an_error plainSprintf roleKey kindNode 6443
                noLines (snd (run (Ports plainSprintf kindNode 6443) noLines))
                (inspectPort plainSprintf kindNode 6443) [] L0 eq_refl) as (_ & _ & Po & _).
  pose proof (C2_wrong_line_count_is_an_error plainSprintf roleKey kindNode 6443
                twoLines (snd (run (IP kindNode) twoLines))
                (inspectIP kindNode) ["a"; "b"] L2 eq_refl) as (_ & Ip & _).
  pose proof (C2_wrong_line_count_is_an_error plainSprintf roleKey kindNode 6443
                twoLines (snd (run (Role plainSprintf roleKey kindNode) twoLines))
                (inspectRole plainSprintf roleKey kindNode) ["a"; "b"] L2 eq_refl)
    as (_ & _ & _ & Ro).
  repeat apply conj.
  - exact L0.
  - reflexivity.
  - exact (Kv _ eq_refl).
  - exact (Po _ eq_refl).
  - exact L2.
  - reflexivity.
  - exact (Ip _ eq_refl).
  - exact (Ro _ eq_refl).
Defined.

Lemma C3_error_leaves_cache_unset_witness :
  run (KubeVersion kindNode) noLines
    = (("", Some (errors.Errorf "file should only be one line, got %d lines" [ArgInt 0])),
       afterNoLines)
  /\ cache_of afterNoLines = cache_of noLines
  /\ kubernetesVersion (cache_of afterNoLines) = ""
  /\ fst (run (KubeVersion kindNode) afterNoLines) = ("v1.13.4", None).
Proof.
  assert (H1 : run (KubeVersion kindNode) noLines
    = (("", Some (errors.Errorf "file should only be one line, got %d lines" [ArgInt 0])),
       afterNoLines)) by reflexivity.
  pose proof (C3_error_leaves_cache_unset plainSprintf roleKey kindNode noLines afterNoLines
                (errors.Errorf "file should only be one line, got %d lines" [ArgInt 0]))
    as (Kv & _).
  destruct (Kv _ H1) as (Hsame & Hunset & Hagain).
  destruct (Hagain afterNoLines eq_refl) as (ans & Hissued & Hgood).
  repeat apply conj.
  - exact H1.
  - exact Hsame.
  - exact Hunset.
  - apply Hgood. vm_compute in Hissued. now injection Hissued as <-.
Defined.

(** C4 as the spec words it fails on the operations that only delegate:
    [CopyTo] hands back the runtime's own error value, which carries no
    message of node.go; so do [CopyFrom], [ImageInspect] and the [cp]
    step of [WriteFile]. *)
Lemma C4_counterexample :
  fst (run (CopyTo kindNode "/tmp/kubeadm.conf" "/kind/kubeadm.conf") failing)
    = Some exitStatus1
  /\ fst (run (CopyFrom kindNode "/etc/kubernetes/admin.conf" "/tmp/admin.conf") failing)
    = Some exitStatus1
  /\ fst (run (ImageInspect kindNode "k8s.gcr.io/pause:3.1") failing)
    = ([], Some exitStatus1)
  /\ fst (run (WriteFile kindNode "/kind/manifests/default-cni.yaml" "kind: List") cpFails)
    = Some exitStatus1
  /\ described exitStatus1 = false
  /\ ~ errors_all_described plainSprintf roleKey kindNode failing.
Proof.
  repeat apply conj; try reflexivity.
  intros Hall.
  specialize (Hall (OpCopyTo "/tmp/kubeadm.conf" "/kind/kubeadm.conf") exitStatus1 eq_refl).
  discriminate Hall.
Qed.

Lemma C4_errors_wrapped_or_handed_on_witness :
  ((catVersion kindNode, ([], Some exitStatus1)) ∈ kindCalls OpKubeVersion failing
   /\ outcome_err (kindResult OpKubeVersion failing)
      = Some (errors.Wrap exitStatus1 "failed to get file")) /\
  ((inspectIP kindNode, ([], Some exitStatus1)) ∈ kindCalls OpIP failing
   /\ outcome_err (kindResult OpIP failing)
      = Some (errors.Wrap exitStatus1 "failed to get file")) /\
  ((inspectPort plainSprintf kindNode 6443, ([], Some exitStatus1))
     ∈ kindCalls (OpPorts 6443) failing
   /\ outcome_err (kindResult (OpPorts 6443) failing)
      = Some (errors.Wrap exitStatus1 "failed to get file")) /\
  ((inspectRole plainSprintf roleKey kindNode, ([], Some exitStatus1))
     ∈ kindCalls OpRole failing
   /\ outcome_err (kindResult OpRole failing)
      = Some (errors.Wrapf exitStatus1 "failed to get %q label" [ArgStr roleKey])) /\
  ((importImage, ([], Some exitStatus1)) ∈ kindCalls (OpLoadImageArchive nodeImage) failing
   /\ outcome_err (kindResult (OpLoadImageArchive nodeImage) failing)
      = Some (errors.Wrap exitStatus1 "failed to load image")) /\
  ((mkdirManifests, ([], Some exitStatus1)) ∈ kindCalls writeManifest mkdirFails
   /\ outcome_err (kindResult writeManifest mkdirFails)
      = Some (errors.Wrapf exitStatus1 "failed to create directory %s"
                [ArgStr cniManifest])) /\
  ((cpManifest, ([], Some exitStatus1)) ∈ kindCalls writeManifest cpFails
   /\ last (kindCalls writeManifest cpFails) = Some (cpManifest, ([], Some exitStatus1))
   /\ outcome_err (kindResult writeManifest cpFails) = Some exitStatus1) /\
  ((CallCopyTo "/tmp/kubeadm.conf" "kind-control-plane" "/kind/kubeadm.conf",
    ([], Some exitStatus1)) ∈ kindCalls copyKubeadmConf failing
   /\ outcome_err (kindResult copyKubeadmConf failing) = Some exitStatus1) /\
  (outcome_err (kindResult (OpPorts 6443) notANumber)
     = Some (errors.Wrap (errors.NumError (strconv.syntaxError "ParseInt" "not-a-number"))
               "failed to get file")
   /\ ((exists c lines e0, (c, (lines, Some e0)) ∈ kindCalls (OpPorts 6443) notANumber)
       \/ (exists c lines,
             kindCalls (OpPorts 6443) notANumber = [(c, (lines, None))] /\
             ((length lines <> 1%nat /\
               errors.Wrap (errors.NumError (strconv.syntaxError "ParseInt" "not-a-number"))
                 "failed to get file"
               = errors.Errorf "file should only be one line, got %d lines"
                   [ArgInt (len lines)])
              \/ (exists line ne,
                    lines = [line] /\
                    snd (strconv.ParseInt line 10 32) = Some ne /\
                    errors.Wrap
                      (errors.NumError (strconv.syntaxError "ParseInt" "not-a-number"))
                      "failed to get file"
                    = errors.Wrap (errors.NumError ne) "failed to get file"))))).
Proof.
  unfold kindResult, kindCalls.
  pose (whole := fun o (s : sys (list response)) =>
          C4_errors_wrapped_or_handed_on plainSprintf roleKey kindNode o s _ _
            (surjective_pairing (run (invoke plainSprintf roleKey kindNode o) s))).
  assert (K : (catVersion kindNode, ([], Some exitStatus1)) ∈ kindCalls OpKubeVersion failing)
    by (vm_compute; apply list_elem_of_here).
  assert (I : (inspectIP kindNode, ([], Some exitStatus1)) ∈ kindCalls OpIP failing)
    by (vm_compute; apply list_elem_of_here).
  assert (P : (inspectPort plainSprintf kindNode 6443, ([], Some exitStatus1))
                ∈ kindCalls (OpPorts 6443) failing)
    by (vm_compute; apply list_elem_of_here).
  assert (R : (inspectRole plainSprintf roleKey kindNode, ([], Some exitStatus1))
                ∈ kindCalls OpRole failing)
    by (vm_compute; apply list_elem_of_here).
  assert (L : (importImage, ([], Some exitStatus1)) ∈ kindCalls (OpLoadImageArchive nodeImage) failing)
    by (vm_compute; apply list_elem_of_here).
  assert (M : (mkdirManifests, ([], Some exitStatus1)) ∈ kindCalls writeManifest mkdirFails)
    by (vm_compute; apply list_elem_of_here).
  assert (C : (cpManifest, ([], Some exitStatus1)) ∈ kindCalls writeManifest cpFails)
    by (vm_compute; apply list_elem_of_further, list_elem_of_here).
  assert (T : (CallCopyTo "/tmp/kubeadm.conf" "kind-control-plane" "/kind/kubeadm.conf",
               ([], Some exitStatus1)) ∈ kindCalls copyKubeadmConf failing)
    by (vm_compute; apply list_elem_of_here).
  assert (N : outcome_err (kindResult (OpPorts 6443) notANumber)
     = Some (errors.Wrap (errors.NumError (strconv.syntaxError "ParseInt" "not-a-number"))
               "failed to get file")) by (vm_compute; reflexivity).
  refine (conj (conj K _) (conj (conj I _) (conj (conj P _) (conj (conj R _)
            (conj (conj L _) (conj (conj M _) (conj (conj C (conj _ _))
               (conj (conj T _) (conj N _))))))))).
  - exact (proj2 (proj1 (whole OpKubeVersion failing) _ _ _ K)).
  - exact (proj2 (proj1 (whole OpIP failing) _ _ _ I)).
  - exact (proj2 (proj1 (whole (OpPorts 6443) failing) _ _ _ P)).
  - exact (proj2 (proj1 (whole OpRole failing) _ _ _ R)).
  - exact (proj2 (proj1 (whole (OpLoadImageArchive nodeImage) failing) _ _ _ L)).
  - exact (proj2 (proj1 (whole writeManifest mkdirFails) _ _ _ M)).
  - exact (proj1 (proj1 (whole writeManifest cpFails) _ _ _ C)).
  - exact (proj2 (proj1 (whole writeManifest cpFails) _ _ _ C)).
  - exact (proj2 (proj1 (whole copyKubeadmConf failing) _ _ _ T)).
  - exact (proj2 (whole (OpPorts 6443) notANumber) _ N).
Defined.

Lemma C5_WriteFile_mkdir_then_cp_witness :
  filepath.Dir "/a/b/c.txt" = "/a/b"
  /\ run (WriteFile kindNode "/a/b/c.txt" "hello") bothSucceed
     = (None, snd (run (WriteFile kindNode "/a/b/c.txt" "hello") bothSucceed))
  /\ issued bothSucceed (snd (run (WriteFile kindNode "/a/b/c.txt" "hello") bothSucceed))
     = [(CallRunLoggingOutputOnFail
           {| container := "kind-control-plane"; command := "mkdir";
              args := ["-p"; "/a/b"]; stdin := None |}, ([], None));
        (CallRun
           {| container := "kind-control-plane"; command := "cp";
              args := ["/dev/stdin"; "/a/b/c.txt"]; stdin := Some "hello" |}, ([], None))]
  /\ run (WriteFile kindNode "/a/b/c.txt" "hello") mkdirFails
     = (Some (errors.Wrapf exitStatus1 "failed to create directory %s" [ArgStr "/a/b/c.txt"]),
        snd (run (WriteFile kindNode "/a/b/c.txt" "hello") mkdirFails))
  /\ issued mkdirFails (snd (run (WriteFile kindNode "/a/b/c.txt" "hello") mkdirFails))
     = [(CallRunLoggingOutputOnFail
           {| container := "kind-control-plane"; command := "mkdir";
              args := ["-p"; "/a/b"]; stdin := None |}, ([], Some exitStatus1))].
Proof.
  assert (H1 : run (WriteFile kindNode "/a/b/c.txt" "hello") bothSucceed
     = (None, snd (run (WriteFile kindNode "/a/b/c.txt" "hello") bothSucceed)))
    by reflexivity.
  assert (H2 : run (WriteFile kindNode "/a/b/c.txt" "hello") mkdirFails
     = (Some (errors.Wrapf exitStatus1 "failed to create directory %s" [ArgStr "/a/b/c.txt"]),
        snd (run (WriteFile kindNode "/a/b/c.txt" "hello") mkdirFails)))
    by reflexivity.
  repeat apply conj.
  - reflexivity.
  - exact H1.
  - destruct (C5_WriteFile_mkdir_then_cp kindNode "/a/b/c.txt" "hello" _ _ _ H1)
      as [(e & Hi & He) | (r & Hi & He)]; [discriminate He|].
    subst r. exact Hi.
  - exact H2.
  - destruct (C5_WriteFile_mkdir_then_cp kindNode "/a/b/c.txt" "hello" _ _ _ H2)
      as [(e & Hi & He) | (r & Hi & He)].
    + injection He as <-. exact Hi.
    + vm_compute in Hi. discriminate Hi.
Defined.

Lemma C6_Ports_sentinel_on_failure_witness :
  (run (Ports plainSprintf kindNode 6443) goodPort
     = ((32769, None), snd (run (Ports plainSprintf kindNode 6443) goodPort)))
  /\ (decimal_value "not-a-number" = None
      /\ exists e,
           fst (run (Ports plainSprintf kindNode 6443) notANumber)
           = (-1, Some (errors.Wrap (errors.NumError e) "failed to get file")))
  /\ fst (run (Ports plainSprintf kindNode 6443) failing)
     = (-1, Some (errors.Wrap exitStatus1 "failed to get file")).
Proof.
  pose proof (C6_Ports_sentinel_on_failure plainSprintf kindNode 6443 goodPort
                (snd (run (Ports plainSprintf kindNode 6443) goodPort))
                (fst (run (Ports plainSprintf kindNode 6443) goodPort)) eq_refl)
    as (_ & _ & _ & _ & Good).
  pose proof (C6_Ports_sentinel_on_failure plainSprintf kindNode 6443 notANumber
                (snd (run (Ports plainSprintf kindNode 6443) notANumber))
                (fst (run (Ports plainSprintf kindNode 6443) notANumber)) eq_refl)
    as (_ & _ & _ & Junk & _).
  pose proof (C6_Ports_sentinel_on_failure plainSprintf kindNode 6443 failing
                (snd (run (Ports plainSprintf kindNode 6443) failing))
                (fst (run (Ports plainSprintf kindNode 6443) failing)) eq_refl)
    as (_ & Failed & _).
  repeat apply conj.
  - rewrite <- (Good (inspectPort plainSprintf kindNode 6443) eq_refl). reflexivity.
  - reflexivity.
  - exact (Junk (inspectPort plainSprintf kindNode 6443) "not-a-number" eq_refl eq_refl).
  - exact (Failed (inspectPort plainSprintf kindNode 6443) [] exitStatus1 eq_refl).
Defined.

Lemma C7_Role_strips_quotes_witness :
  issued quotedRole (snd (run (Role plainSprintf roleKey kindNode) quotedRole))
    = [(inspectRole plainSprintf roleKey kindNode, (["'control-plane'"], None))]
  /\ fst (run (Role plainSprintf roleKey kindNode) quotedRole) = ("control-plane", None)
  /\ role (cache_of (snd (run (Role plainSprintf roleKey kindNode) quotedRole)))
     = "control-plane".
Proof.
  split; [reflexivity|].
  exact (proj2 (C7_Role_strips_quotes plainSprintf roleKey kindNode quotedRole
                  (snd (run (Role plainSprintf roleKey kindNode) quotedRole))
                  (fst (run (Role plainSprintf roleKey kindNode) quotedRole))
                  (inspectRole plainSprintf roleKey kindNode) eq_refl) eq_refl).
Defined.

Lemma C8_getProxyDetails_prefers_upper_case_witness :
  ("HTTP_PROXY" ∈ proxyEnvs)
  /\ (lowerOnly !! "HTTP_PROXY" = Some ""
      /\ lowerOnly !! "http_proxy" = Some "http://x"
      /\ Envs (getProxyDetails lowerOnly) !! "HTTP_PROXY" = Some "http://x")
  /\ (bothCases !! "HTTP_PROXY" = Some "http://y"
      /\ Envs (getProxyDetails bothCases) !! "HTTP_PROXY" = Some "http://y")
  /\ ((∅ : gmap string string) !! "HTTP_PROXY" = None
      /\ Envs (getProxyDetails ∅) !! "HTTP_PROXY" = None)
  /\ (("http_proxy" ∉ proxyEnvs)
      /\ Envs (getProxyDetails lowerOnly) !! "http_proxy" = None).
Proof.
  assert (Hin : "HTTP_PROXY" ∈ proxyEnvs) by apply list_elem_of_here.
  assert (Hout : "http_proxy" ∉ proxyEnvs).
  { intros Hx. apply list_elem_of_In in Hx. simpl in Hx.
    destruct Hx as [Hx|[Hx|[Hx|[]]]]; discriminate Hx. }
  assert (Hne : forall a b : string, String.eqb a b = false -> a <> b).
  { intros a b Hab. now apply String.eqb_neq. }
  destruct (proj1 (C8_getProxyDetails_prefers_upper_case lowerOnly "HTTP_PROXY") Hin)
    as (_ & Lower & _).
  destruct (proj1 (C8_getProxyDetails_prefers_upper_case bothCases "HTTP_PROXY") Hin)
    as (Upper & _ & _).
  destruct (proj1 (C8_getProxyDetails_prefers_upper_case ∅ "HTTP_PROXY") Hin)
    as (_ & _ & Neither).
  repeat apply conj.
  - exact Hin.
  - reflexivity.
  - reflexivity.
  - exact (Lower "http://x" (or_intror eq_refl) eq_refl (Hne "http://x" "" eq_refl)).
  - reflexivity.
  - exact (Upper "http://y" eq_refl (Hne "http://y" "" eq_refl)).
  - reflexivity.
  - exact (Neither (or_introl eq_refl) (or_introl eq_refl)).
  - exact Hout.
  - exact (proj2 (C8_getProxyDetails_prefers_upper_case lowerOnly "http_proxy") Hout).
Defined.

Lemma C10_Ports_rejects_out_of_range_witness :
  decimal_value "3000000000" = Some 3000000000
  /\ ~ in_int32 3000000000
  /\ fst (run (Ports plainSprintf kindNode 6443) tooLarge)
     = (-1, Some (errors.Wrap
                    (errors.NumError (strconv.rangeError "ParseInt" "3000000000"))
                    "failed to get file"))
  /\ cache_of (snd (run (Ports plainSprintf kindNode 6443) tooLarge)) = cache_of tooLarge
  /\ (decimal_value "32769" = Some 32769 /\ in_int32 32769
      /\ fst (run (Ports plainSprintf kindNode 6443) goodPort) = (32769, None)).
Proof.
  assert (Hout : ~ in_int32 3000000000) by (unfold in_int32; lia).
  assert (Hin : in_int32 32769) by (unfold in_int32; lia).
  assert (Hbig : issued tooLarge (snd (run (Ports plainSprintf kindNode 6443) tooLarge))
                 = [(inspectPort plainSprintf kindNode 6443, (["3000000000"], None))])
    by (vm_compute; reflexivity).
  assert (Hfit : issued goodPort (snd (run (Ports plainSprintf kindNode 6443) goodPort))
                 = [(inspectPort plainSprintf kindNode 6443, (["32769"], None))])
    by (vm_compute; reflexivity).
  destruct (C10_Ports_rejects_out_of_range plainSprintf kindNode 6443 tooLarge _ _
              (inspectPort plainSprintf kindNode 6443) "3000000000" 3000000000
              (surjective_pairing _) Hbig eq_refl) as [_ Hbad].
  destruct (C10_Ports_rejects_out_of_range plainSprintf kindNode 6443 goodPort _ _
              (inspectPort plainSprintf kindNode 6443) "32769" 32769
              (surjective_pairing _) Hfit eq_refl) as [Hgood _].
  refine (conj _ (conj _ (conj _ (conj _ (conj _ (conj _ _)))))).
  - reflexivity.
  - exact Hout.
  - exact (proj1 (Hbad Hout)).
  - exact (proj2 (Hbad Hout)).
  - reflexivity.
  - exact Hin.
  - exact (Hgood Hin).
Defined.

(** ** More worked values *)

(** The models of Go's library functions agree with the tables of Go's
    own tests for them. *)
Example Clean_examples :
  map filepath.Clean
      ["abc"; "abc/def"; "a/b/c"; "."; ".."; "../.."; "../../abc"; "/abc"; "/"; "";
       "abc/"; "abc/def/"; "a/b/c/"; "./"; "../"; "../../"; "/abc/";
       "abc//def//ghi"; "//abc"; "///abc"; "//abc//"; "abc//";
       "abc/./def"; "/./abc/def"; "abc/.";
       "abc/def/ghi/../jkl"; "abc/def/../ghi/../jkl"; "abc/def/.."; "abc/def/../..";
       "/abc/def/../.."; "abc/def/../../.."; "/abc/def/../../..";
       "abc/def/../../../ghi/jkl/../../../mno"; "/../abc";
       "abc/./../def"; "abc//./../def"; "abc/../../././../def"]
  = ["abc"; "abc/def"; "a/b/c"; "."; ".."; "../.."; "../../abc"; "/abc"; "/"; ".";
     "abc"; "abc/def"; "a/b/c"; "."; ".."; "../.."; "/abc";
     "abc/def/ghi"; "/abc"; "/abc"; "/abc"; "abc";
     "abc/def"; "/abc/def"; "abc";
     "abc/def/jkl"; "abc/jkl"; "abc"; ".";
     "/"; ".."; "/";
     "../../mno"; "/abc";
     "def"; "def"; "../../def"].
Proof. reflexivity. Qed.

Example Dir_examples :
  map filepath.Dir
      ["/a/b/c.txt"; ""; "."; "/."; "/"; "////"; "/foo"; "x/"; "abc"; "abc/def";
       "a/b/.x"; "a/b/c."; "a/b/c.x"; "a/b/../../../x/y"; "..a/b"]
  = ["/a/b"; "."; "."; "/"; "/"; "/"; "/"; "x"; "."; "abc";
     "a/b"; "a/b"; "a/b"; "../x"; "..a"].
Proof. reflexivity. Qed.

Example ParseInt_examples :
  map (fun s => strconv.ParseInt s 10 32)
      [""; "0"; "-0"; "1"; "-1"; "12345"; "-12345"; "012345"; "-012345";
       "12345x"; "-12345x"; "987654321"; "-987654321";
       "2147483647"; "-2147483647"; "2147483648"; "-2147483648";
       "2147483649"; "-2147483649";
       "-1_2_3_4_5"; "-_12345"; "_12345"; "1__2345"; "12345_";
       "+80"; "-"; "0x1F"; "99999999999999999999999"]
  = [(0, Some (strconv.syntaxError "ParseInt" ""));
     (0, None); (0, None); (1, None); (-1, None); (12345, None); (-12345, None);
     (12345, None); (-12345, None);
     (0, Some (strconv.syntaxError "ParseInt" "12345x"));
     (0, Some (strconv.syntaxError "ParseInt" "-12345x"));
     (987654321, None); (-987654321, None);
     (2147483647, None); (-2147483647, None);
     (2147483647, Some (strconv.rangeError "ParseInt" "2147483648"));
     (-2147483648, None);
     (2147483647, Some (strconv.rangeError "ParseInt" "2147483649"));
     (-2147483648, Some (strconv.rangeError "ParseInt" "-2147483649"));
     (0, Some (strconv.syntaxError "ParseInt" "-1_2_3_4_5"));
     (0, Some (strconv.syntaxError "ParseInt" "-_12345"));
     (0, Some (strconv.syntaxError "ParseInt" "_12345"));
     (0, Some (strconv.syntaxError "ParseInt" "1__2345"));
     (0, Some (strconv.syntaxError "ParseInt" "12345_"));
     (80, None);
     (0, Some (strconv.syntaxError "ParseInt" "-"));
     (0, Some (strconv.syntaxError "ParseInt" "0x1F"));
     (2147483647, Some (strconv.rangeError "ParseInt" "99999999999999999999999"))].
Proof. reflexivity. Qed.

Example Trim_examples :
  map (fun s => strings.Trim s "'") ["'control-plane'"; "worker"; "''"; "'a'b'"; "''x"]
  = ["control-plane"; "worker"; ""; "a'b"; "x"].
Proof. reflexivity. Qed.

Example ToLower_proxyEnvs :
  map strings.ToLower proxyEnvs = ["http_proxy"; "https_proxy"; "no_proxy"].
Proof. reflexivity. Qed.

(** A success whose one line is empty leaves the field unset: the next
    call asks the runtime again.  A first call reuses its value only when
    it has left the field set. *)
Example empty_line_is_not_cached :
  let s := fresh [([""], None); (["v1.13.4"], None)] in
  let s1 := snd (run (KubeVersion kindNode) s) in
  fst (run (KubeVersion kindNode) s) = ("", None)
  /\ kubernetesVersion (cache_of s1) = ""
  /\ fst (run (KubeVersion kindNode) s1) = ("v1.13.4", None)
  /\ length (issued s1 (snd (run (KubeVersion kindNode) s1))) = 1%nat.
Proof. repeat split. Qed.

(** ** Overlapping calls *)

Section Overlap.

Context {W : Type} `{Runtime W}.
Variable Sprintf : string -> list fmtarg -> string.
Variable NodeRoleKey : string.
Variable n : Node.

(** Running a method is stepping its thread until it returns. *)
Lemma run_thread_step {A} (p p' : prog A) (s s' : sys W) :
  thread_step p s = Some (p', s') -> run p s = run p' s'.
Proof.
  destruct p as [a | k | setter k | c k]; simpl.
  - discriminate.
  - now intros [= <- <-].
  - now intros [= <- <-].
  - destruct (perform c (world s)) as [r w']. now intros [= <- <-].
Qed.

Lemma run_thread_done {A} (p : prog A) (s : sys W) :
  thread_step p s = None -> exists a, p = Ret a /\ run p s = (a, s).
Proof.
  destruct p as [a | k | setter k | c k]; simpl; try discriminate.
  - intros _. now exists a.
  - destruct (perform c (world s)); discriminate.
Qed.

(** A thread alone in its pool, given enough turns, ends where [run]
    says: running one method at a time is a schedule like any other. *)
Lemma schedule_alone {A} (p : prog A) : forall s : sys W,
  exists turns,
    schedule (repeat 0%nat turns) [p] s = ([Ret (fst (run p s))], snd (run p s)).
Proof.
  induction p as [a | k IH | setter k IH | c k IH]; intros s.
  - exists 0%nat. reflexivity.
  - destruct (IH (cache_of s) s) as [turns Ht]. exists (S turns). exact Ht.
  - destruct (IH (mkSys (setter (cache_of s)) (world s) (trace s))) as [turns Ht].
    exists (S turns). exact Ht.
  - destruct (perform c (world s)) as [r w'] eqn:Hc.
    destruct (IH r (mkSys (cache_of s) w' (trace s ++ [(c, r)]))) as [turns Ht].
    exists (S turns). simpl. rewrite Hc. exact Ht.
Qed.

Variable answer : call -> response.

(** The runtime gives one answer per question, whenever it is asked. *)
Hypothesis stable : forall c (w : W), fst (perform c w) = answer c.

Local Abbreviation within := (within Sprintf NodeRoleKey n answer).
Local Abbreviation truthful := (truthful Sprintf NodeRoleKey n answer).

Lemma truthful_bind {A B} (m : prog A) (f : A -> prog B) :
  truthful m -> (forall a, truthful (f a)) -> truthful (bind m f).
Proof.
  intros Hm Hf. induction m as [a | k IH | setter k IH | c k IH]; simpl in *.
  - apply Hf.
  - intros c. apply IH, Hm.
  - split; [apply Hm | apply IH, Hm].
  - apply IH, Hm.
Qed.

Lemma within_set_kubernetesVersion c :
  within c ->
  within (set_kubernetesVersion (settled_version n answer) c)
  /\ grows c (set_kubernetesVersion (settled_version n answer) c).
Proof.
  intros (Hkv & Hip & Hrole & Hports). split.
  - repeat split; simpl; auto.
  - unfold grows; simpl. repeat split; auto. intros Hset.
    destruct Hkv; congruence.
Qed.

Lemma within_set_ip c :
  within c ->
  within (set_ip (settled_ip n answer) c) /\ grows c (set_ip (settled_ip n answer) c).
Proof.
  intros (Hkv & Hip & Hrole & Hports). split.
  - repeat split; simpl; auto.
  - unfold grows; simpl. repeat split; auto. intros Hset.
    destruct Hip; congruence.
Qed.

Lemma within_set_role c :
  within c ->
  within (set_role (settled_role Sprintf NodeRoleKey n answer) c)
  /\ grows c (set_role (settled_role Sprintf NodeRoleKey n answer) c).
Proof.
  intros (Hkv & Hip & Hrole & Hports). split.
  - repeat split; simpl; auto.
  - unfold grows; simpl. repeat split; auto. intros Hset.
    destruct Hrole; congruence.
Qed.

Lemma within_set_port c p :
  within c ->
  within (set_port p (settled_port Sprintf n answer p) c)
  /\ grows c (set_port p (settled_port Sprintf n answer p) c).
Proof.
  intros (Hkv & Hip & Hrole & Hports). split.
  - repeat split; simpl; auto.
    intros q h. rewrite HostPort_set_port.
    destruct (decide (p = q)) as [<-|]; [now intros [= <-] | apply Hports].
  - unfold grows. repeat split; try (simpl; tauto).
    intros q h Hq. rewrite HostPort_set_port.
    destruct (decide (p = q)) as [<-|]; [|exact Hq].
    now rewrite (Hports _ _ Hq).
Qed.

(** Every operation only stores settled values. *)
Lemma KubeVersion_truthful : truthful (KubeVersion n).
Proof.
  unfold KubeVersion, cache.KubeVersion, exec.CombinedOutputLines, cache.set.
  cbn [bind]. intros c. cbn [truthful].
  destruct (negb _); [exact I|]. cbn [truthful].
  destruct (answer _) as [lines [e|]] eqn:Ha; [exact I|].
  destruct (negb _); [exact I|]. cbn [truthful bind]. split; [|exact I].
  replace (hd "" lines) with (settled_version n answer)
    by (unfold settled_version, catVersion; now rewrite Ha).
  apply within_set_kubernetesVersion.
Qed.

Lemma IP_truthful : truthful (IP n).
Proof.
  unfold IP, cache.IP, docker.Inspect, cache.set.
  cbn [bind]. intros c. cbn [truthful].
  destruct (negb _); [exact I|]. cbn [truthful].
  destruct (answer _) as [lines [e|]] eqn:Ha; [exact I|].
  destruct (negb _); [exact I|]. cbn [truthful bind]. split; [|exact I].
  replace (hd "" lines) with (settled_ip n answer)
    by (unfold settled_ip, inspectIP; now rewrite Ha).
  apply within_set_ip.
Qed.

Lemma Role_truthful : truthful (Role Sprintf NodeRoleKey n).
Proof.
  unfold Role, cache.Role, docker.Inspect, cache.set.
  cbn [bind]. intros c. cbn [truthful].
  destruct (negb _); [exact I|]. cbn [truthful].
  destruct (answer _) as [lines [e|]] eqn:Ha; [exact I|].
  destruct (negb _); [exact I|]. cbn [truthful bind]. split; [|exact I].
  replace (strings.Trim (hd "" lines) "'")
    with (settled_role Sprintf NodeRoleKey n answer)
    by (unfold settled_role, inspectRole; now rewrite Ha).
  apply within_set_role.
Qed.

Lemma Ports_truthful p : truthful (Ports Sprintf n p).
Proof.
  unfold Ports, cache.HostPort, docker.Inspect, cache.set.
  cbn [bind]. intros c. cbn [truthful].
  destruct (HostPort c p) as [h [|]]; [exact I|]. cbn [truthful].
  destruct (answer _) as [lines [e|]] eqn:Ha; [exact I|].
  destruct (negb _); [exact I|].
  destruct (strconv.ParseInt _ _ _) as [parsed [e|]] eqn:Hp; [exact I|].
  cbn [truthful bind]. split; [|exact I].
  replace (int32 parsed) with (settled_port Sprintf n answer p)
    by (unfold settled_port, inspectPort; rewrite Ha; cbn [fst]; now rewrite Hp).
  intros c'. apply within_set_port.
Qed.

Lemma invoke_truthful o : truthful (invoke Sprintf NodeRoleKey n o).
Proof.
  destruct o; unfold invoke; apply truthful_bind; try (intros; exact I).
  - apply KubeVersion_truthful.
  - apply IP_truthful.
  - apply Ports_truthful.
  - apply Role_truthful.
  - unfold WriteFile, exec.RunLoggingOutputOnFail, exec.Run. cbn [bind truthful].
    destruct (snd _); exact I.
  - unfold LoadImageArchive, exec.Run. cbn [bind truthful].
    destruct (snd _); exact I.
Qed.

(** One step of one thread keeps all of this, and lets the cache grow. *)
Lemma thread_step_within {A} (p p' : prog A) (s s' : sys W) :
  thread_step p s = Some (p', s') ->
  truthful p -> within (cache_of s) ->
  truthful p' /\ within (cache_of s') /\ grows (cache_of s) (cache_of s').
Proof.
  destruct p as [a | k | setter k | c k]; simpl.
  - discriminate.
  - intros [= <- <-] Hp Hc. auto using grows_refl.
  - intros [= <- <-] [Hset Hk] Hc. simpl. destruct (Hset _ Hc). auto.
  - pose proof (stable c (world s)) as Hans.
    destruct (perform c (world s)) as [r w']. simpl in Hans. subst r.
    intros [= <- <-] Hp Hc. simpl. auto using grows_refl.
Qed.

(** Under any schedule of any pool of operations the cache only grows:
    what [run_ops_grows] says of calls made one after the other also
    holds of calls that overlap, as long as the runtime does not change
    its answers. *)
Theorem overlapping_calls_grow (order : list nat) :
  forall (pool : list (prog outcome)) (s : sys W),
    Forall truthful pool -> within (cache_of s) ->
    let '(pool', s') := schedule order pool s in
    Forall truthful pool' /\ within (cache_of s') /\ grows (cache_of s) (cache_of s').
Proof.
  induction order as [|i order IH]; intros pool s Hpool Hc; simpl.
  - auto using grows_refl.
  - destruct (pool !! i) as [p|] eqn:Hi; [|apply IH; assumption].
    destruct (thread_step p s) as [[p' s1]|] eqn:Hstep; [|apply IH; assumption].
    assert (Hp : truthful p) by (eapply Forall_lookup_1; eassumption).
    destruct (thread_step_within _ _ _ _ Hstep Hp Hc) as (Hp' & Hc1 & Hg1).
    specialize (IH (<[i := p']> pool) s1 (Forall_insert _ _ _ _ Hpool Hp') Hc1).
    destruct (schedule order (<[i := p']> pool) s1) as [pool' s'].
    destruct IH as (Hpool' & Hc' & Hg'). eauto using grows_trans.
Qed.

Corollary overlapping_invocations_grow (order : list nat) (ops : list op) (s : sys W) :
  within (cache_of s) ->
  grows (cache_of s)
        (cache_of (snd (schedule order (map (invoke Sprintf NodeRoleKey n) ops) s))).
Proof.
  intros Hc.
  assert (Hpool : Forall truthful (map (invoke Sprintf NodeRoleKey n) ops)).
  { apply Forall_forall. intros p Hp. apply list_elem_of_fmap in Hp.
    destruct Hp as (o & -> & _). apply invoke_truthful. }
  pose proof (overlapping_calls_grow order _ s Hpool Hc) as Hs.
  destruct (schedule order _ s) as [pool' s']. simpl. apply Hs.
Qed.

End Overlap.

(** The steady runtime is one that does not change its answers. *)
Lemma Steady_stable (c : call) (w : unit) : fst (perform c w) = steady_answer c.
Proof. destruct c; reflexivity. Qed.

Example overlapping_on_a_steady_runtime :
  grows emptyCache
        (cache_of (snd (schedule raceOrder
                          (map (invoke plainSprintf roleKey kindNode)
                               [OpKubeVersion; OpKubeVersion])
                          (mkSys emptyCache tt [])))).
Proof.
  apply (overlapping_invocations_grow plainSprintf roleKey kindNode steady_answer
           Steady_stable raceOrder [OpKubeVersion; OpKubeVersion] (mkSys emptyCache tt [])).
  unfold within; simpl. repeat split; auto. discriminate.
Qed.

(** When the runtime does change its answer between two overlapping calls
    that both missed, the second [set] replaces the value of the first:
    [nodeCache.set] itself checks nothing.  One after the other, the
    same two calls leave the first value in place. *)
Example overlapping_calls_on_a_changing_runtime :
  let pool := map (invoke plainSprintf roleKey kindNode) [OpKubeVersion; OpKubeVersion] in
  kubernetesVersion (cache_of (snd (schedule (removelast raceOrder) pool upgraded)))
    = "v1.13.4"
  /\ kubernetesVersion (cache_of (snd (schedule raceOrder pool upgraded))) = "v1.14.0"
  /\ kubernetesVersion (cache_of (snd (schedule inTurn pool upgraded))) = "v1.13.4"
  /\ kubernetesVersion
       (cache_of (run_ops plainSprintf roleKey kindNode [OpKubeVersion; OpKubeVersion]
                          upgraded)) = "v1.13.4".
Proof. repeat split. Qed.

(** ** Calls that begin after another has returned *)

Section LaterCalls.

Context {W : Type} `{Runtime W}.
Variable Sprintf : string -> list fmtarg -> string.
Variable NodeRoleKey : string.
Variable n : Node.

Lemma remembered_grows (c c' : nodeCache) (o : op) (out : outcome) :
  remembered c o out -> grows c c' -> remembered c' o out.
Proof.
  intros [Hset <-] (Hkv & Hip & Hrole & Hports).
  unfold remembered. destruct o; simpl in *; try discriminate.
  - destruct (String.eqb_spec (kubernetesVersion c) ""); [discriminate|].
    rewrite (Hkv n0). split; [|reflexivity].
    now destruct (String.eqb_spec (kubernetesVersion c) "").
  - destruct (String.eqb_spec (ip c) ""); [discriminate|].
    rewrite (Hip n0). split; [|reflexivity].
    now destruct (String.eqb_spec (ip c) "").
  - destruct (HostPort c containerPort) as [h b] eqn:Hp. simpl in Hset. subst b.
    now rewrite (Hports _ _ Hp).
  - destruct (String.eqb_spec (role c) ""); [discriminate|].
    rewrite (Hrole n0). split; [|reflexivity].
    now destruct (String.eqb_spec (role c) "").
Qed.

(** A call that finds its field set returns in one step, from the cache. *)
Lemma hit_step (o : op) (s : sys W) :
  cached (cache_of s) o = true ->
  thread_step (invoke Sprintf NodeRoleKey n o) s
  = Some (Ret (hit_outcome (cache_of s) o), s)
  /\ is_call (invoke Sprintf NodeRoleKey n o) = false.
Proof.
  destruct o; simpl; try discriminate; intros Hset.
  - now rewrite Hset.
  - now rewrite Hset.
  - destruct (HostPort (cache_of s) containerPort) as [h b]. simpl in Hset. now subst b.
  - now rewrite Hset.
Qed.

(** Every operation returns what it has just read from the cache or
    just stored there. *)
Lemma lands_bind_never (o : op) {A} (m : prog A) (f : A -> outcome) :
  (forall a, populates o (f a) = false) ->
  forall c, lands o (bind m (fun a => Ret (f a))) c.
Proof.
  intros Hnever. induction m as [a | k IH | setter k IH | q k IH]; intros c; simpl.
  - now rewrite Hnever.
  - intros c'. apply IH.
  - intros c'. apply IH.
  - intros r c'. apply IH.
Qed.

Lemma invoke_lands (o : op) (c : nodeCache) : lands o (invoke Sprintf NodeRoleKey n o) c.
Proof.
  destruct o; unfold invoke;
    try (apply lands_bind_never; intros; reflexivity).
  - unfold KubeVersion, cache.KubeVersion, exec.CombinedOutputLines, cache.set.
    cbn [bind lands]. intros c'.
    destruct (String.eqb_spec (kubernetesVersion c') "") as [Hkv|Hkv]; cbn [negb bind lands].
    + intros [lines [e|]] c1; cbn [bind lands fst snd populates]; [discriminate|].
      destruct (negb _); cbn [bind lands fst snd populates]; [discriminate|].
      intros c2 Hv. unfold remembered. simpl. now rewrite Hv.
    + cbn [fst snd populates]. intros Hv. unfold remembered. simpl. now rewrite Hv.
  - unfold IP, cache.IP, docker.Inspect, cache.set.
    cbn [bind lands]. intros c'.
    destruct (String.eqb_spec (ip c') "") as [Hip|Hip]; cbn [negb bind lands].
    + intros [lines [e|]] c1; cbn [bind lands fst snd populates]; [discriminate|].
      destruct (negb _); cbn [bind lands fst snd populates]; [discriminate|].
      intros c2 Hv. unfold remembered. simpl. now rewrite Hv.
    + cbn [fst snd populates]. intros Hv. unfold remembered. simpl. now rewrite Hv.
  - unfold Ports, cache.HostPort, docker.Inspect, cache.set.
    cbn [bind lands]. intros c'.
    destruct (HostPort c' containerPort) as [h [|]] eqn:Hp; cbn [bind lands].
    + cbn [fst snd populates]. intros _. unfold remembered. simpl. now rewrite Hp.
    + intros [lines [e|]] c1; cbn [bind lands fst snd populates]; [discriminate|].
      destruct (negb _); cbn [bind lands fst snd populates]; [discriminate|].
      destruct (strconv.ParseInt _ _ _) as [parsed [e|]];
        cbn [bind lands fst snd populates]; [discriminate|].
      intros c2 _. unfold remembered. cbn [cached hit_outcome].
      rewrite HostPort_set_port. now destruct (decide _).
  - unfold Role, cache.Role, docker.Inspect, cache.set.
    cbn [bind lands]. intros c'.
    destruct (String.eqb_spec (role c') "") as [Hrole|Hrole]; cbn [negb bind lands].
    + intros [lines [e|]] c1; cbn [bind lands fst snd populates]; [discriminate|].
      destruct (negb _); cbn [bind lands fst snd populates]; [discriminate|].
      intros c2 Hv. unfold remembered. simpl. now rewrite Hv.
    + cbn [fst snd populates]. intros Hv. unfold remembered. simpl. now rewrite Hv.
Qed.

Lemma lands_step (o : op) (p p' : prog outcome) (s s' : sys W) :
  thread_step p s = Some (p', s') -> lands o p (cache_of s) -> lands o p' (cache_of s').
Proof.
  destruct p as [a | k | setter k | q k]; simpl.
  - discriminate.
  - intros [= <- <-] Hp. apply Hp.
  - intros [= <- <-] Hp. apply Hp.
  - destruct (perform q (world s)) as [r w']. intros [= <- <-] Hp. apply Hp.
Qed.

Lemma lands_grows (o : op) (p : prog outcome) (c c' : nodeCache) :
  lands o p c -> grows c c' -> lands o p c'.
Proof.
  destruct p as [a | k | setter k | q k]; simpl; auto.
  intros Hp Hg Hout. eapply remembered_grows; eauto.
Qed.

(** A thread that takes no step stays as it is. *)
Lemma schedule_skips {A} (i : nat) (order : list nat) :
  forall (pool : list (prog A)) (s : sys W),
    i ∉ order -> fst (schedule order pool s) !! i = pool !! i.
Proof.
  induction order as [|k order IH]; intros pool s Hi; simpl; [reflexivity|].
  apply not_elem_of_cons in Hi. destruct Hi as [Hik Hi].
  destruct (pool !! k) as [p|]; [|now apply IH].
  destruct (thread_step p s) as [[p' s1]|]; [|now apply IH].
  rewrite IH by assumption. now apply list_lookup_insert_ne.
Qed.

(** A thread that has returned stays as it is, and calls nothing. *)
Lemma returned_stays {A} (i : nat) (a : A) (order : list nat) :
  forall (pool : list (prog A)) (s : sys W),
    pool !! i = Some (Ret a) ->
    fst (schedule order pool s) !! i = Some (Ret a) /\ i ∉ callers order pool s.
Proof.
  induction order as [|k order IH]; intros pool s Hi; simpl.
  - split; [assumption | apply not_elem_of_nil].
  - destruct (pool !! k) as [p|] eqn:Hk; [|now apply IH].
    destruct (thread_step p s) as [[p' s1]|] eqn:Hstep; [|now apply IH].
    assert (Hki : k <> i).
    { intros ->. rewrite Hi in Hk. injection Hk as <-. discriminate Hstep. }
    assert (Hi' : <[k := p']> pool !! i = Some (Ret a))
      by now rewrite list_lookup_insert_ne.
    destruct (IH _ s1 Hi') as [Hres Hcalls]. split; [assumption|].
    destruct (is_call p); [|assumption].
    apply not_elem_of_cons. split; [congruence | assumption].
Qed.

Variable answer : call -> response.

Hypothesis stable : forall c (w : W), fst (perform c w) = answer c.

Local Abbreviation within := (within Sprintf NodeRoleKey n answer).
Local Abbreviation truthful := (truthful Sprintf NodeRoleKey n answer).

Lemma invocations_truthful (ops : list op) :
  Forall truthful (map (invoke Sprintf NodeRoleKey n) ops).
Proof.
  apply Forall_forall. intros p Hp. apply list_elem_of_fmap in Hp.
  destruct Hp as (o & -> & _). apply invoke_truthful.
Qed.

(** The threads of a pool return what the cache holds, and this is kept
    by every step of every thread. *)
Lemma overlapping_calls_land (order : list nat) :
  forall (ops : list op) (pool : list (prog outcome)) (s : sys W),
    Forall2 (fun o p => lands o p (cache_of s)) ops pool ->
    Forall truthful pool -> within (cache_of s) ->
    Forall2 (fun o p => lands o p (cache_of (snd (schedule order pool s))))
            ops (fst (schedule order pool s)).
Proof.
  induction order as [|i order IH]; intros ops pool s Hl Hpool Hc; simpl.
  - assumption.
  - destruct (pool !! i) as [p|] eqn:Hi; [|now apply IH].
    destruct (thread_step p s) as [[p' s1]|] eqn:Hstep; [|now apply IH].
    assert (Hp : truthful p) by (eapply Forall_lookup_1; eassumption).
    destruct (thread_step_within Sprintf NodeRoleKey n answer stable _ _ _ _ Hstep Hp Hc)
      as (Hp' & Hc1 & Hg1).
    destruct (Forall2_lookup_r _ _ _ _ _ Hl Hi) as (o & Ho & Hlo).
    apply IH; [|apply Forall_insert; assumption | assumption].
    rewrite <- (list_insert_id ops i o Ho).
    apply Forall2_insert.
    + eapply Forall2_impl; [exact Hl|]. intros o' q Hq.
      exact (lands_grows _ _ _ _ Hq Hg1).
    + exact (lands_step _ _ _ _ _ Hstep Hlo).
Qed.

(** Once the cache holds [out] for [o], a call of [o] that has not begun
    returns [out] at its first step and never calls the runtime. *)
Lemma later_call_hits (o : op) (out : outcome) (i : nat) (order : list nat) :
  forall (pool : list (prog outcome)) (s : sys W),
    Forall truthful pool -> within (cache_of s) ->
    remembered (cache_of s) o out ->
    pool !! i = Some (invoke Sprintf NodeRoleKey n o) ->
    (i ∈ order -> fst (schedule order pool s) !! i = Some (Ret out))
    /\ i ∉ callers order pool s.
Proof.
  induction order as [|k order IH]; intros pool s Hpool Hc Hrem Hi; simpl.
  - split; [intros Hin; now apply elem_of_nil in Hin | apply not_elem_of_nil].
  - destruct (hit_step o s (proj1 Hrem)) as [Hhit Hquiet].
    rewrite (proj2 Hrem) in Hhit.
    destruct (decide (k = i)) as [->|Hki].
    + rewrite Hi, Hhit, Hquiet.
      assert (Hi' : <[i := Ret out]> pool !! i = Some (Ret out)).
      { apply list_lookup_insert_eq. eapply lookup_lt_Some; eassumption. }
      destruct (returned_stays i out order _ s Hi') as [Hres Hcalls].
      split; [intros _; assumption | assumption].
    + assert (Hrest : forall (pool' : list (prog outcome)) (s' : sys W),
                Forall truthful pool' -> within (cache_of s') ->
                remembered (cache_of s') o out ->
                pool' !! i = Some (invoke Sprintf NodeRoleKey n o) ->
                (i ∈ (k :: order) -> fst (schedule order pool' s') !! i = Some (Ret out))
                /\ (i ∉ (k :: callers order pool' s'))
                /\ i ∉ callers order pool' s').
      { intros pool' s' Hpool' Hc' Hrem' Hi'.
        destruct (IH pool' s' Hpool' Hc' Hrem' Hi') as [Hres Hcalls].
        repeat split; [|apply not_elem_of_cons; split; [congruence | assumption]
                       |assumption].
        intros Hin. apply elem_of_cons in Hin. destruct Hin as [->|Hin];
          [contradiction | auto]. }
      destruct (pool !! k) as [p|] eqn:Hk;
        [|destruct (Hrest pool s) as (? & ? & ?); auto].
      destruct (thread_step p s) as [[p' s1]|] eqn:Hstep;
        [|destruct (Hrest pool s) as (? & ? & ?); auto].
      assert (Hp : truthful p) by (eapply Forall_lookup_1; eassumption).
      destruct (thread_step_within Sprintf NodeRoleKey n answer stable _ _ _ _ Hstep Hp Hc)
        as (Hp' & Hc1 & Hg1).
      destruct (Hrest (<[k := p']> pool) s1) as (Hres & Hcons & Hcalls).
      * apply Forall_insert; assumption.
      * assumption.
      * eapply remembered_grows; eauto.
      * now rewrite list_lookup_insert_ne.
      * split; [assumption|]. now destruct (is_call p).
Qed.

(** From a cache that is unset or holds the runtime's answers, calls that
    overlap in any way reuse what an earlier call has returned. *)
Lemma stable_later_calls_reuse (s0 : sys W) :
  within (cache_of s0) -> later_calls_reuse Sprintf NodeRoleKey n s0.
Proof.
  intros Hc ops order1 order2 i j o out start Hj Hret Hpop Hi Hnot.
  pose proof (overlapping_calls_grow Sprintf NodeRoleKey n answer stable order1
                _ s0 (invocations_truthful ops) Hc) as Hgrow.
  assert (Hland : Forall2 (fun o p => lands o p (cache_of (snd start))) ops (fst start)).
  { apply overlapping_calls_land; [|apply invocations_truthful | assumption].
    apply Forall2_fmap_r, Forall_Forall2_diag, Forall_forall.
    intros o' _. apply invoke_lands. }
  pose proof (schedule_skips i order1 (map (invoke Sprintf NodeRoleKey n) ops) s0 Hnot)
    as Hsame.
  rewrite list_lookup_fmap, Hi in Hsame. cbn [fmap option_fmap option_map] in Hsame.
  fold start in Hgrow, Hsame. destruct start as [pool1 s1]. cbn [fst snd] in *.
  destruct Hgrow as (Hpool1 & Hc1 & _).
  destruct (Forall2_lookup_lr _ _ _ _ _ _ Hland Hj Hret Hpop) as [Hset Hout].
  exact (later_call_hits o out i order2 pool1 s1 Hpool1 Hc1 (conj Hset Hout) Hsame).
Qed.

(** And what is set at any moment stays set to the same value. *)
Lemma stable_set_fields_are_kept (s0 : sys W) :
  within (cache_of s0) -> set_fields_are_kept Sprintf NodeRoleKey n s0.
Proof.
  intros Hc ops order1 order2 start.
  pose proof (overlapping_calls_grow Sprintf NodeRoleKey n answer stable order1
                _ s0 (invocations_truthful ops) Hc) as Hgrow.
  fold start in Hgrow. destruct start as [pool1 s1]. cbn [fst snd].
  destruct Hgrow as (Hpool1 & Hc1 & _).
  pose proof (overlapping_calls_grow Sprintf NodeRoleKey n answer stable order2
                pool1 s1 Hpool1 Hc1) as Hgrow.
  destruct (schedule order2 pool1 s1) as [pool2 s2]. apply Hgrow.
Qed.

End LaterCalls.








(** * Further properties of node.go *)

(** ** strings.Trim *)

Lemma TrimLeft_only cutset s :
  strings.TrimLeft s cutset = "" <-> only_bytes cutset s = true.
Proof.
  induction s as [|c rest IH]; simpl; [tauto|].
  destruct (strings.contains_byte cutset c); simpl; [exact IH|].
  split; discriminate.
Qed.

Lemma TrimRight_empty cutset s :
  strings.TrimRight s cutset = "" <-> only_bytes cutset s = true.
Proof.
  induction s as [|c rest IH]; simpl; [tauto|].
  destruct (strings.TrimRight rest cutset) as [|d kept] eqn:Hr.
  - destruct (strings.contains_byte cutset c); simpl.
    + split; [intros _; now apply IH | reflexivity].
    + split; discriminate.
  - split; [discriminate|]. intros Hb. apply andb_prop in Hb as [_ Hb].
    apply IH in Hb. discriminate Hb.
Qed.

Lemma only_bytes_TrimLeft cutset s :
  only_bytes cutset (strings.TrimLeft s cutset) = only_bytes cutset s.
Proof.
  induction s as [|c rest IH]; simpl; [reflexivity|].
  destruct (strings.contains_byte cutset c) eqn:Hc; simpl; [exact IH|].
  now rewrite Hc.
Qed.

(** The trimmed string is empty exactly when the string is made of
    cutset bytes only. *)
Lemma Trim_empty cutset s :
  strings.Trim s cutset = "" <-> only_bytes cutset s = true.
Proof.
  unfold strings.Trim. rewrite TrimRight_empty. now rewrite only_bytes_TrimLeft.
Qed.

(** [TrimRight] keeps a first byte that is not to be cut. *)
Lemma TrimRight_head cutset c rest :
  strings.contains_byte cutset c = false ->
  exists kept, strings.TrimRight (String c rest) cutset = String c kept.
Proof.
  intros Hc. simpl. destruct (strings.TrimRight rest cutset) as [|d kept].
  - rewrite Hc. now exists "".
  - now exists (String d kept).
Qed.

Lemma TrimRight_idempotent cutset s :
  strings.TrimRight (strings.TrimRight s cutset) cutset = strings.TrimRight s cutset.
Proof.
  induction s as [|c rest IH]; simpl; [reflexivity|].
  destruct (strings.TrimRight rest cutset) as [|d kept] eqn:Hr.
  - destruct (strings.contains_byte cutset c) eqn:Hc; simpl; [reflexivity|].
    now rewrite Hc.
  - simpl in *. rewrite IH. reflexivity.
Qed.

Lemma TrimLeft_head cutset s c rest :
  strings.TrimLeft s cutset = String c rest -> strings.contains_byte cutset c = false.
Proof.
  induction s as [|d s IH]; simpl; [discriminate|].
  destruct (strings.contains_byte cutset d) eqn:Hd; [exact IH|].
  now intros [= <- _].
Qed.

(** Trimming twice is trimming once. *)
Lemma Trim_idempotent cutset s :
  strings.Trim (strings.Trim s cutset) cutset = strings.Trim s cutset.
Proof.
  unfold strings.Trim.
  destruct (strings.TrimLeft s cutset) as [|c rest] eqn:Hl; [reflexivity|].
  pose proof (TrimLeft_head _ _ _ _ Hl) as Hc.
  destruct (TrimRight_head cutset c rest Hc) as [kept Hk]. rewrite Hk.
  cbn [strings.TrimLeft]. rewrite Hc, <- Hk. apply TrimRight_idempotent.
Qed.

(** The trimmed string does not start with a cutset byte ... *)
Lemma Trim_first cutset s c rest :
  strings.Trim s cutset = String c rest -> strings.contains_byte cutset c = false.
Proof.
  unfold strings.Trim.
  destruct (strings.TrimLeft s cutset) as [|d t] eqn:Hl; [discriminate|].
  pose proof (TrimLeft_head _ _ _ _ Hl) as Hd.
  destruct (TrimRight_head cutset d t Hd) as [kept Hk]. rewrite Hk.
  now intros [= <- _].
Qed.

(** ... and does not end with one. *)
Lemma TrimRight_last cutset s : forall front c,
  strings.TrimRight s cutset = front +:+ String c "" ->
  strings.contains_byte cutset c = false.
Proof.
  induction s as [|d s IH]; intros front c; simpl.
  - destruct front; discriminate.
  - destruct (strings.TrimRight s cutset) as [|e kept] eqn:Hr.
    + destruct (strings.contains_byte cutset d) eqn:Hd.
      * destruct front; discriminate.
      * destruct front as [|f front]; simpl.
        -- now intros [= <-].
        -- intros [= _ Hf]. destruct front; discriminate Hf.
    + destruct front as [|f front]; simpl.
      * intros Hf. inversion Hf.
      * intros [= _ Hf]. apply (IH front c). exact Hf.
Qed.

Lemma Trim_last cutset s front c :
  strings.Trim s cutset = front +:+ String c "" ->
  strings.contains_byte cutset c = false.
Proof. unfold strings.Trim. apply TrimRight_last. Qed.

Section Coverage.

Context {W : Type} `{Runtime W}.
Variable Sprintf : string -> list fmtarg -> string.
Variable NodeRoleKey : string.

Ltac walk_step :=
  match goal with
  | |- context [String.eqb ?a ?b] => destruct (String.eqb_spec a b)
  | |- context [perform ?c ?w] =>
      let P := fresh "Hperform" in
      destruct (perform c w) as [[? [?|]] ?] eqn:P
  | |- context [Nat.eqb (length ?l) 1] => destruct (Nat.eqb_spec (length l) 1)
  | |- context [strconv.ParseInt ?s ?b ?z] =>
      let P := fresh "Hparse" in
      destruct (strconv.ParseInt s b z) as [? [?|]] eqn:P
  | |- context [HostPort ?c ?p] =>
      let P := fresh "Hport" in
      destruct (HostPort c p) as [? [|]] eqn:P
  end; cbn [run bind negb fst snd cache_of world trace].

Ltac open_ops :=
  unfold invoke, KubeVersion, IP, Ports, Role, WriteFile, ImageInspect,
    LoadImageArchive, CopyTo, CopyFrom,
    cache.KubeVersion, cache.IP, cache.HostPort, cache.Role, cache.set,
    docker.Inspect, docker.CopyTo, docker.CopyFrom,
    exec.CombinedOutputLines, exec.RunLoggingOutputOnFail, exec.Run;
  cbn [run bind negb fst snd cache_of world trace].

Ltac walk := open_ops; repeat walk_step.

(** Walk every path of an operation, then use [run op s = (r, s')]. *)
Ltac along_paths :=
  walk; try (let E := fresh "Hrun" in intros E; simplify_eq);
  rewrite ?issued_same, ?issued_app, ?issued_app2;
  intros; simplify_eq; cbn [cache_of world trace fst snd] in *.

(** X1. A query changes no field but its own: [KubeVersion] leaves the
    address, the role and the port map as they were, and likewise [IP]
    and [Role]; [Ports p] leaves the three strings and the entry of every
    other port. *)
Theorem queries_change_only_their_field (n : Node) (p : Z) (s : sys W) :
  (let c' := cache_of (snd (run (KubeVersion n) s)) in
   ip c' = ip (cache_of s) /\ role c' = role (cache_of s)
   /\ ports c' = ports (cache_of s)) /\
  (let c' := cache_of (snd (run (IP n) s)) in
   kubernetesVersion c' = kubernetesVersion (cache_of s) /\ role c' = role (cache_of s)
   /\ ports c' = ports (cache_of s)) /\
  (let c' := cache_of (snd (run (Role Sprintf NodeRoleKey n) s)) in
   kubernetesVersion c' = kubernetesVersion (cache_of s) /\ ip c' = ip (cache_of s)
   /\ ports c' = ports (cache_of s)) /\
  (let c' := cache_of (snd (run (Ports Sprintf n p) s)) in
   kubernetesVersion c' = kubernetesVersion (cache_of s) /\ ip c' = ip (cache_of s)
   /\ role c' = role (cache_of s)
   /\ forall q, q <> p -> HostPort c' q = HostPort (cache_of s) q).
Proof.
  repeat apply conj; walk; try reflexivity.
  all: intros q Hq; try reflexivity.
  all: rewrite HostPort_set_port; destruct (decide (p = q)); congruence.
Qed.


(** *** The trace only gets longer *)

Lemma run_extends {A} (p : prog A) : forall s : sys W,
  trace (snd (run p s)) = trace s ++ issued s (snd (run p s)).
Proof.
  induction p as [a | k IH | setter k IH | c k IH]; intros s; simpl.
  - now rewrite issued_same, app_nil_r.
  - apply IH.
  - rewrite (IH (mkSys (setter (cache_of s)) (world s) (trace s))) at 1. simpl.
    f_equal.
  - destruct (perform c (world s)) as [r w'].
    pose proof (IH r (mkSys (cache_of s) w' (trace s ++ [(c, r)]))) as Hk.
    simpl in Hk. rewrite Hk at 1. rewrite <- app_assoc. f_equal.
    unfold issued at 2. rewrite Hk, <- app_assoc, drop_app_length. reflexivity.
Qed.

Lemma issued_trans (s1 s2 s3 : sys W) :
  trace s2 = trace s1 ++ issued s1 s2 ->
  trace s3 = trace s2 ++ issued s2 s3 ->
  trace s3 = trace s1 ++ (issued s1 s2 ++ issued s2 s3)
  /\ issued s1 s3 = issued s1 s2 ++ issued s2 s3.
Proof.
  intros H12 H23.
  assert (Hall : trace s3 = trace s1 ++ (issued s1 s2 ++ issued s2 s3)).
  { rewrite H23. rewrite H12 at 1. now rewrite <- app_assoc. }
  split; [exact Hall|]. unfold issued at 1. rewrite Hall. apply drop_app_length.
Qed.

Lemma run_ops_extends n l : forall s : sys W,
  trace (run_ops Sprintf NodeRoleKey n l s)
  = trace s ++ issued s (run_ops Sprintf NodeRoleKey n l s).
Proof.
  induction l as [|o l IH]; intros s; simpl.
  - now rewrite issued_same, app_nil_r.
  - destruct (issued_trans s _ _ (run_extends (invoke Sprintf NodeRoleKey n o) s)
                (IH (snd (run (invoke Sprintf NodeRoleKey n o) s)))) as [Hall Hi].
    now rewrite Hi.
Qed.

Lemma run_ops_issued n o l (s : sys W) :
  issued s (run_ops Sprintf NodeRoleKey n (o :: l) s)
  = issued s (snd (run (invoke Sprintf NodeRoleKey n o) s))
    ++ issued (snd (run (invoke Sprintf NodeRoleKey n o) s))
         (run_ops Sprintf NodeRoleKey n l (snd (run (invoke Sprintf NodeRoleKey n o) s))).
Proof.
  simpl. apply issued_trans; [apply run_extends | apply run_ops_extends].
Qed.

Lemma invoke_targets n o (s : sys W) :
  Forall (fun ev => call_target (fst ev) = Name n)
         (issued s (snd (run (invoke Sprintf NodeRoleKey n o) s))).
Proof.
  destruct o; walk; rewrite ?issued_same, ?issued_app, ?issued_app2;
    repeat constructor.
Qed.

(** X3. Whatever operations run on a handle, every call they make is
    addressed to the handle's own container: the inspections, the copies
    and every command name [Node.Name]. *)
Theorem every_call_targets_the_node (n : Node) (l : list op) (s : sys W) :
  Forall (fun ev => call_target (fst ev) = Name n)
         (issued s (run_ops Sprintf NodeRoleKey n l s)).
Proof.
  revert s. induction l as [|o l IH]; intros s.
  - simpl. rewrite issued_same. constructor.
  - rewrite run_ops_issued. apply Forall_app. split; [apply invoke_targets | apply IH].
Qed.

(** X4. A query asks the runtime exactly when its field is unset: no
    call on a hit, one call on a miss, never more. *)
Theorem queries_ask_once_on_a_miss (n : Node) (o : op) (s : sys W) :
  is_query o = true ->
  length (issued s (snd (run (invoke Sprintf NodeRoleKey n o) s)))
  = if cached (cache_of s) o then 0%nat else 1%nat.
Proof.
  intros Hq. destruct o; try discriminate Hq; unfold cached; walk;
    rewrite ?issued_same, ?issued_app; cbn [negb snd length];
    try reflexivity; try congruence.
Qed.

(** *** A cached query is a no-op *)

Lemma cached_hit n o (s : sys W) :
  cached (cache_of s) o = true ->
  snd (run (invoke Sprintf NodeRoleKey n o) s) = s.
Proof.
  destruct o; unfold cached; try discriminate; walk; cbn [negb snd];
    try reflexivity; discriminate.
Qed.

Lemma cached_grows c c' o : cached c o = true -> grows c c' -> cached c' o = true.
Proof.
  intros Hc (Hkv & Hip & Hrole & Hports). destruct o; simpl in *; try discriminate.
  - destruct (String.eqb_spec (kubernetesVersion c) ""); [discriminate|].
    rewrite (Hkv n). now destruct (String.eqb_spec (kubernetesVersion c) "").
  - destruct (String.eqb_spec (ip c) ""); [discriminate|].
    rewrite (Hip n). now destruct (String.eqb_spec (ip c) "").
  - destruct (HostPort c containerPort) as [h b] eqn:Hp. simpl in Hc. subst b.
    now rewrite (Hports _ _ Hp).
  - destruct (String.eqb_spec (role c) ""); [discriminate|].
    rewrite (Hrole n). now destruct (String.eqb_spec (role c) "").
Qed.

Lemma run_ops_app n l1 l2 (s : sys W) :
  run_ops Sprintf NodeRoleKey n (l1 ++ l2) s
  = run_ops Sprintf NodeRoleKey n l2 (run_ops Sprintf NodeRoleKey n l1 s).
Proof.
  revert s. induction l1 as [|o l1 IH]; intros s; simpl; [reflexivity | apply IH].
Qed.

(** X5. Once the field of a query is set, the query can be dropped from
    or added to any later point of any sequence of operations without
    changing the state the sequence ends in: cache, runtime and the calls
    made are the same. *)
Theorem cached_query_is_a_no_op (n : Node) (o : op) (l1 l2 : list op) (s : sys W) :
  cached (cache_of s) o = true ->
  run_ops Sprintf NodeRoleKey n (l1 ++ o :: l2) s
  = run_ops Sprintf NodeRoleKey n (l1 ++ l2) s.
Proof.
  intros Hc. rewrite !run_ops_app. simpl. f_equal. apply cached_hit.
  eapply cached_grows; [exact Hc | apply run_ops_grows].
Qed.

(** X6. [KubeVersion] and [IP] return and store the single line as it
    is: nothing is trimmed or checked, whatever the line holds. *)
Theorem version_and_ip_are_the_line_verbatim
        (n : Node) (s s' : sys W) (r : string * option error) (c : call) (line : string) :
  issued s s' = [(c, ([line], None))] ->
  (run (KubeVersion n) s = (r, s') ->
     r = (line, None) /\ kubernetesVersion (cache_of s') = line) /\
  (run (IP n) s = (r, s') -> r = (line, None) /\ ip (cache_of s') = line).
Proof.
  intros Hi. split; intros Hrun; revert Hi; revert Hrun; along_paths;
    try (simpl in *; congruence); split; reflexivity.
Qed.

(** X7. A successful query is remembered exactly when the value it
    stores is not empty: an empty version or address line, or a role
    line made of single quotes only, gives a nil error and leaves the
    field unset, so the next call asks again.  A port that parses is
    always remembered. *)
Theorem empty_values_are_not_remembered
        (n : Node) (p : Z) (s s' : sys W) (c : call) (line : string) :
  issued s s' = [(c, ([line], None))] ->
  (forall r, run (KubeVersion n) s = (r, s') ->
     r = (line, None)
     /\ cached (cache_of s') OpKubeVersion = negb (String.eqb line "")) /\
  (forall r, run (IP n) s = (r, s') ->
     r = (line, None) /\ cached (cache_of s') OpIP = negb (String.eqb line "")) /\
  (forall r, run (Role Sprintf NodeRoleKey n) s = (r, s') ->
     r = (strings.Trim line "'", None)
     /\ cached (cache_of s') OpRole = negb (only_bytes "'" line)) /\
  (forall h, run (Ports Sprintf n p) s = ((h, None), s') ->
     cached (cache_of s') (OpPorts p) = true).
Proof.
  intros Hi. repeat apply conj.
  - intros r Hrun. revert Hi. revert Hrun. along_paths;
      try (simpl in *; congruence);
      (split; [reflexivity|]); simpl; try reflexivity;
      destruct (String.eqb_spec line ""); simpl; congruence.
  - intros r Hrun. revert Hi. revert Hrun. along_paths;
      try (simpl in *; congruence);
      (split; [reflexivity|]); simpl; try reflexivity;
      destruct (String.eqb_spec line ""); simpl; congruence.
  - intros r Hrun. revert Hi. revert Hrun. along_paths;
      try (simpl in *; congruence). split; [reflexivity|]. simpl.
    destruct (String.eqb_spec (strings.Trim line "'") "") as [He|He].
    + apply Trim_empty in He. now rewrite He.
    + destruct (only_bytes "'" line) eqn:Ho; [|reflexivity].
      apply Trim_empty in Ho. contradiction.
  - intros h Hrun. apply (Ports_ok Sprintf) in Hrun. simpl. now rewrite Hrun.
Qed.


Lemma Role_keeps_trimmed n (s : sys W) :
  role_is_trimmed (cache_of s) ->
  role_is_trimmed (cache_of (snd (run (Role Sprintf NodeRoleKey n) s))).
Proof.
  unfold role_is_trimmed. walk; try (intros; assumption).
  intros _. simpl. apply Trim_idempotent.
Qed.

Lemma invoke_keeps_trimmed n o (s : sys W) :
  role_is_trimmed (cache_of s) ->
  role_is_trimmed (cache_of (snd (run (invoke Sprintf NodeRoleKey n o) s))).
Proof.
  unfold role_is_trimmed. destruct o; walk; try (intros; assumption).
  intros _. simpl. apply Trim_idempotent.
Qed.

Lemma run_ops_keeps_trimmed n l : forall s : sys W,
  role_is_trimmed (cache_of s) ->
  role_is_trimmed (cache_of (run_ops Sprintf NodeRoleKey n l s)).
Proof.
  induction l as [|o l IH]; intros s Hs; simpl; [exact Hs|].
  apply IH, invoke_keeps_trimmed, Hs.
Qed.

(** X8. On a handle whose cached role has no single quote at either end
    (an empty cache to begin with), [Role] never returns a value that
    starts or ends with a single quote, whatever ran before and whatever
    the runtime answers; quotes inside the value are kept. *)
Theorem Role_has_no_quote_at_either_end
        (n : Node) (l : list op) (s s2 : sys W) (v : string) :
  role_is_trimmed (cache_of s) ->
  run (Role Sprintf NodeRoleKey n) (run_ops Sprintf NodeRoleKey n l s) = ((v, None), s2) ->
  strings.Trim v "'" = v
  /\ (forall rest, v <> String "'" rest)
  /\ (forall front, v <> front +:+ "'").
Proof.
  intros Hs Hrun.
  assert (Hv : strings.Trim v "'" = v).
  { pose proof (Role_keeps_trimmed n _ (run_ops_keeps_trimmed n l s Hs)) as Ht.
    rewrite Hrun in Ht. apply (Role_ok Sprintf NodeRoleKey) in Hrun.
    unfold role_is_trimmed in Ht. simpl in Ht. now rewrite Hrun in Ht. }
  repeat split; [exact Hv | |].
  - intros rest ->. apply Trim_first in Hv. discriminate Hv.
  - intros front ->. apply Trim_last in Hv. discriminate Hv.
Qed.

(** X16. [KubeVersion], [IP] and [Role] never return a value together
    with an error: on every failing path the string is empty. *)
Theorem string_queries_return_nothing_with_an_error
        (n : Node) (s s' : sys W) (v : string) (e : error) :
  (run (KubeVersion n) s = ((v, Some e), s') -> v = "") /\
  (run (IP n) s = ((v, Some e), s') -> v = "") /\
  (run (Role Sprintf NodeRoleKey n) s = ((v, Some e), s') -> v = "").
Proof. repeat apply conj; along_paths; reflexivity. Qed.

(** X17. A port that [Ports] returns after asking the runtime is the
    number written in the line, and lies in the int32 range: the
    conversion of the parsed value to int32 never changes it. *)
Theorem Ports_returns_the_number_in_the_line
        (n : Node) (p h : Z) (s s' : sys W) (c : call) (line : string) :
  run (Ports Sprintf n p) s = ((h, None), s') ->
  issued s s' = [(c, ([line], None))] ->
  decimal_value line = Some h /\ in_int32 h
  /\ HostPort (cache_of s') p = (h, true).
Proof.
  intros Hrun Hi. pose proof (Ports_ok Sprintf _ _ _ _ _ Hrun) as Hc.
  revert Hi. revert Hrun. along_paths; cbn [hd] in *; try congruence.
  match goal with
  | Hp : strconv.ParseInt _ _ _ = _ |- _ =>
      apply ParseInt_in_int32 in Hp; destruct Hp as [Hd Hr]
  end.
  rewrite (int32_id _ Hr) in *. auto.
Qed.

Lemma invoke_spares_the_version_file n o (s : sys W) :
  kubernetesVersion (cache_of s) <> "" ->
  Forall (fun ev => fst ev <> catVersion n)
         (issued s (snd (run (invoke Sprintf NodeRoleKey n o) s))).
Proof.
  intros Hset. unfold catVersion.
  destruct o; walk; rewrite ?issued_same, ?issued_app, ?issued_app2;
    try contradiction; repeat constructor; simpl; discriminate.
Qed.

(** X18. Once the version is in the cache, no operation on the handle
    reads the version file again: whatever runs afterwards, [cat
    /kind/version] is not among the calls made. *)
Theorem version_file_is_not_read_again (n : Node) (l : list op) (s : sys W) :
  kubernetesVersion (cache_of s) <> "" ->
  Forall (fun ev => fst ev <> catVersion n)
         (issued s (run_ops Sprintf NodeRoleKey n l s)).
Proof.
  revert s. induction l as [|o l IH]; intros s Hset.
  - simpl. rewrite issued_same. constructor.
  - rewrite run_ops_issued. apply Forall_app. split.
    + now apply invoke_spares_the_version_file.
    + apply IH. destruct (invoke_grows Sprintf NodeRoleKey n o s) as (Hkv & _).
      now rewrite (Hkv Hset).
Qed.

End Coverage.

(** ** More on the proxy settings *)

Lemma proxy_value_nonempty env name v :
  proxy_value env name = Some v ->
  v <> "" /\ (env !! name = Some v \/ env !! strings.ToLower name = Some v).
Proof.
  assert (Hget : forall k, os.Getenv env k <> "" -> env !! k = Some (os.Getenv env k)).
  { intros k. unfold os.Getenv. destruct (env !! k); simpl; [reflexivity | congruence]. }
  unfold proxy_value.
  destruct (String.eqb_spec (os.Getenv env name) "") as [|Hup]; simpl.
  - destruct (String.eqb_spec (os.Getenv env (strings.ToLower name)) "") as [|Hlo];
      simpl; [discriminate|].
    intros [= <-]. split; [exact Hlo | right; apply Hget, Hlo].
  - intros [= <-]. split; [exact Hup | left; apply Hget, Hup].
Qed.

Lemma proxy_values_nonempty env k v :
  Envs (getProxyDetails env) !! k = Some v -> v <> "".
Proof.
  intros Hk. destruct (decide (k ∈ proxyEnvs)) as [Hin|Hout].
  - rewrite (getProxyDetails_lookup _ _ Hin) in Hk.
    now apply proxy_value_nonempty in Hk.
  - rewrite (getProxyDetails_other _ _ Hout) in Hk. discriminate Hk.
Qed.

(** X9. Every entry of the mapping is one of the three upper-case names,
    with a value that is not empty and that is the value of that variable
    or of its lower-case form in the environment: nothing is made up and
    no empty setting is passed on. *)
Theorem proxy_entries_come_from_the_environment
        (env : gmap string string) (k v : string) :
  Envs (getProxyDetails env) !! k = Some v ->
  k ∈ proxyEnvs /\ v <> ""
  /\ (env !! k = Some v \/ env !! strings.ToLower k = Some v).
Proof.
  intros Hk. destruct (decide (k ∈ proxyEnvs)) as [Hin|Hout].
  - split; [exact Hin|]. rewrite (getProxyDetails_lookup _ _ Hin) in Hk.
    now apply proxy_value_nonempty.
  - rewrite (getProxyDetails_other _ _ Hout) in Hk. discriminate Hk.
Qed.

Lemma proxyDetails_eq (a b : proxyDetails) :
  (forall k, Envs a !! k = Envs b !! k) -> a = b.
Proof.
  destruct a as [ma], b as [mb]. simpl. intros Hk. f_equal. now apply map_eq.
Qed.

(** X10. The mapping depends on the six proxy variables only: two
    environments that agree on them give the same mapping, whatever else
    they hold. *)
Theorem proxy_details_read_six_variables (env env' : gmap string string) :
  same_proxy_variables env env' -> getProxyDetails env = getProxyDetails env'.
Proof.
  intros Hsame. apply proxyDetails_eq. intros k.
  destruct (decide (k ∈ proxyEnvs)) as [Hin|Hout].
  - rewrite !(getProxyDetails_lookup _ _ Hin). unfold proxy_value.
    destruct (Hsame k Hin) as [-> ->]. reflexivity.
  - now rewrite !(getProxyDetails_other _ _ Hout).
Qed.

Lemma lower_names_are_not_keys name :
  name ∈ proxyEnvs -> strings.ToLower name ∉ proxyEnvs.
Proof.
  intros Hin Hlow. apply list_elem_of_In in Hin. apply list_elem_of_In in Hlow.
  simpl in Hin. destruct Hin as [<-|[<-|[<-|[]]]]; simpl in Hlow;
    destruct Hlow as [Hl|[Hl|[Hl|[]]]]; discriminate Hl.
Qed.

(** X11. Discovering the proxy settings again in an environment that
    holds just the discovered mapping gives that mapping back: what is
    forwarded to a node is found there unchanged. *)
Theorem proxy_details_are_a_fixed_point (env : gmap string string) :
  getProxyDetails (Envs (getProxyDetails env)) = getProxyDetails env.
Proof.
  apply proxyDetails_eq. intros k.
  destruct (decide (k ∈ proxyEnvs)) as [Hin|Hout].
  - rewrite (getProxyDetails_lookup _ _ Hin). unfold proxy_value at 1.
    unfold os.Getenv.
    rewrite (getProxyDetails_other env _ (lower_names_are_not_keys _ Hin)).
    destruct (Envs (getProxyDetails env) !! k) as [v|] eqn:Hk; simpl.
    + apply proxy_values_nonempty in Hk.
      destruct (String.eqb_spec v ""); [contradiction | reflexivity].
    + reflexivity.
  - now rewrite !(getProxyDetails_other _ _ Hout).
Qed.

(** ** Calls that overlap, and calls in another order *)

Section Steadiness.

Context {W : Type} `{Runtime W}.
Variable Sprintf : string -> list fmtarg -> string.
Variable NodeRoleKey : string.
Variable n : Node.
Variable answer : call -> response.

(** The runtime gives one answer per question, whenever it is asked. *)
Hypothesis stable : forall c (w : W), fst (perform c w) = answer c.

(** X12. With a runtime that does not change its answers, calls that
    overlap in any way keep the cache in order: under every schedule of
    the atomic steps of any operations, a field that is set keeps its
    value, and a field that gets set holds the value the runtime gives. *)
Theorem overlapping_calls_keep_set_fields
        (order : list nat) (ops : list op) (s : sys W) :
  within Sprintf NodeRoleKey n answer (cache_of s) ->
  let s' := snd (schedule order (map (invoke Sprintf NodeRoleKey n) ops) s) in
  within Sprintf NodeRoleKey n answer (cache_of s')
  /\ grows (cache_of s) (cache_of s').
Proof.
  intros Hc s'. subst s'.
  assert (Hpool : Forall (truthful Sprintf NodeRoleKey n answer)
                         (map (invoke Sprintf NodeRoleKey n) ops)).
  { apply Forall_forall. intros p Hp. apply list_elem_of_fmap in Hp.
    destruct Hp as (o & -> & _). apply invoke_truthful. }
  pose proof (overlapping_calls_grow Sprintf NodeRoleKey n answer stable order _ s Hpool Hc)
    as Hs.
  destruct (schedule order _ s) as [pool' s']. simpl. tauto.
Qed.

Lemma invoke_effect o (s : sys W) :
  cache_of (snd (run (invoke Sprintf NodeRoleKey n o) s))
  = effect Sprintf NodeRoleKey n answer o (cache_of s).
Proof.
  unfold effect, store_answer, cached, catVersion, inspectIP, inspectPort, inspectRole.
  destruct o;
    unfold invoke, KubeVersion, IP, Ports, Role, WriteFile, ImageInspect,
      LoadImageArchive, CopyTo, CopyFrom,
      cache.KubeVersion, cache.IP, cache.HostPort, cache.Role, cache.set,
      docker.Inspect, docker.CopyTo, docker.CopyFrom,
      exec.CombinedOutputLines, exec.RunLoggingOutputOnFail, exec.Run;
    cbn [run bind negb fst snd cache_of world trace];
    repeat match goal with
      | |- context [String.eqb ?a ?b] =>
          destruct (String.eqb a b); cbn [run bind negb fst snd cache_of world trace]
      | |- context [HostPort ?c ?p] =>
          destruct (HostPort c p) as [? [|]];
          cbn [run bind negb fst snd cache_of world trace]
      | |- context [perform ?c ?w] =>
          let P := fresh "Hperform" in
          pose proof (stable c w) as P;
          destruct (perform c w) as [? ?]; cbn [fst] in P; rewrite P; clear P;
          cbn [run bind negb fst snd cache_of world trace]
      | |- context [answer ?c] =>
          destruct (answer c) as [[|? [|? ?]] [?|]];
          cbn [run bind negb fst snd cache_of world trace length Nat.eqb hd]
      | |- context [strconv.ParseInt ?x ?b ?z] =>
          destruct (strconv.ParseInt x b z) as [? [?|]];
          cbn [run bind negb fst snd cache_of world trace]
      end;
    reflexivity.
Qed.

Lemma HostPort_ports c c' p : ports c' = ports c -> HostPort c' p = HostPort c p.
Proof. unfold HostPort. now intros ->. Qed.

Lemma set_port_commute p q hp hq c :
  p <> q -> set_port p hp (set_port q hq c) = set_port q hq (set_port p hp c).
Proof.
  intros Hpq. unfold set_port; simpl. f_equal. f_equal.
  destruct (ports c); now apply insert_insert_ne.
Qed.

Local Abbreviation eff := (effect Sprintf NodeRoleKey n answer).
Local Abbreviation store := (store_answer Sprintf NodeRoleKey n answer).

(** An operation leaves alone the fields that other operations test. *)
Lemma effect_cached o1 o2 c :
  o1 <> o2 -> cached (eff o1 c) o2 = cached c o2.
Proof.
  intros Hne. unfold effect, store_answer.
  destruct (cached c o1); [reflexivity|].
  destruct o1; try reflexivity;
    repeat match goal with
      | |- context [answer ?x] => destruct (answer x) as [[|? [|? ?]] [?|]]
      | |- context [strconv.ParseInt ?x ?b ?z] =>
          destruct (strconv.ParseInt x b z) as [? [?|]]
      end; try reflexivity;
    destruct o2; try reflexivity; try congruence.
  simpl. rewrite HostPort_set_port.
  destruct (decide (containerPort = containerPort0)); [congruence | reflexivity].
Qed.

Lemma store_commute o1 o2 c :
  o1 <> o2 -> store o1 (store o2 c) = store o2 (store o1 c).
Proof.
  intros Hne. unfold store_answer.
  destruct o1; try reflexivity; destruct o2; try reflexivity; try congruence;
    repeat match goal with
      | |- context [answer ?x] => destruct (answer x) as [[|? [|? ?]] [?|]]
      | |- context [strconv.ParseInt ?x ?b ?z] =>
          destruct (strconv.ParseInt x b z) as [? [?|]]
      end; try reflexivity.
  apply set_port_commute. congruence.
Qed.

Lemma effect_commute o1 o2 c : eff o1 (eff o2 c) = eff o2 (eff o1 c).
Proof.
  destruct (decide (o1 = o2)) as [->|Hne]; [reflexivity|].
  unfold effect at 1 3.
  rewrite (effect_cached o2 o1 c) by congruence. rewrite (effect_cached o1 o2 c Hne).
  unfold effect.
  destruct (cached c o1), (cached c o2); try reflexivity.
  now apply store_commute.
Qed.

Lemma run_ops_effect l : forall s : sys W,
  cache_of (run_ops Sprintf NodeRoleKey n l s)
  = fold_left (fun c o => eff o c) l (cache_of s).
Proof.
  induction l as [|o l IH]; intros s; simpl; [reflexivity|].
  now rewrite IH, invoke_effect.
Qed.

(** X14. With a runtime that does not change its answers, the cache a
    handle ends with does not depend on the order of the operations:
    any reordering of a sequence of operations leaves the same cache. *)
Theorem order_of_operations_does_not_matter (l l' : list op) (s : sys W) :
  Permutation l l' ->
  cache_of (run_ops Sprintf NodeRoleKey n l s)
  = cache_of (run_ops Sprintf NodeRoleKey n l' s).
Proof.
  intros Hperm. rewrite !run_ops_effect. generalize (cache_of s).
  induction Hperm as [| o l l' _ IH | o1 o2 l | l1 l2 l3 _ IH1 _ IH2]; intros c; simpl.
  - reflexivity.
  - apply IH.
  - now rewrite effect_commute.
  - now rewrite IH1.
Qed.

End Steadiness.

(** X13. [nodeCache.set] stores without looking: when two [KubeVersion]
    calls overlap so that both miss before either stores, the value
    stored second replaces the one stored first, even when the runtime
    answered them differently; one after the other, the second call keeps
    the first value unless that was empty. *)
Theorem overlapping_misses_store_twice
        (Sprintf : string -> list fmtarg -> string) (NodeRoleKey : string)
        (n : Node) (v1 v2 : string) :
  kubernetesVersion
    (cache_of (snd (schedule (removelast raceOrder)
                             (twoKubeVersionCalls Sprintf NodeRoleKey n)
                             (twoVersions v1 v2)))) = v1
  /\ kubernetesVersion
       (cache_of (snd (schedule raceOrder (twoKubeVersionCalls Sprintf NodeRoleKey n)
                                (twoVersions v1 v2)))) = v2
  /\ kubernetesVersion
       (cache_of (run_ops Sprintf NodeRoleKey n [OpKubeVersion; OpKubeVersion]
                          (twoVersions v1 v2)))
     = if String.eqb v1 "" then v2 else v1.
Proof.
  repeat apply conj; try reflexivity.
  simpl. unfold KubeVersion, cache.KubeVersion, exec.CombinedOutputLines, cache.set.
  cbn [run bind negb fst snd cache_of world trace perform combinedOutputLines Scripted
       next_answer twoVersions fresh length Nat.eqb hd set_kubernetesVersion
       kubernetesVersion emptyCache String.eqb].
  destruct (String.eqb v1 ""); reflexivity.
Qed.

(** ** The directory that WriteFile creates *)

Lemma string_of_buf_acc out : forall acc,
  acc <> "" -> fold_left (fun a c => String c a) out acc <> "".
Proof.
  induction out as [|c out IH]; intros acc Hacc; simpl; [exact Hacc|].
  apply IH. discriminate.
Qed.

Lemma Clean_nonempty path : filepath.Clean path <> "".
Proof.
  unfold filepath.Clean. destruct path as [|c rest]; [discriminate|].
  destruct (if filepath.IsPathSeparator c then _ else _) as [|d out]; [discriminate|].
  unfold filepath.string_of_buf. simpl. apply string_of_buf_acc. discriminate.
Qed.

Lemma last_cons_some {A} (x : A) (l : list A) (y : A) :
  last l = Some y -> last (x :: l) = Some y.
Proof. destruct l; [discriminate | trivial]. Qed.

Lemma backtrack_rooted out :
  last out = Some ("/"%char : ascii) -> (1 < length out)%nat ->
  last (filepath.backtrack out 1) = Some ("/"%char : ascii).
Proof.
  induction out as [|c out IH]; intros Hl Hlen; [discriminate|].
  assert (Hout : last out = Some ("/"%char : ascii)).
  { destruct out; [simpl in Hlen; lia | exact Hl]. }
  cbn [filepath.backtrack].
  destruct (Nat.ltb_spec 1 (length out)); cbn [andb]; [|exact Hout].
  destruct (negb (filepath.IsPathSeparator c)); [apply IH; assumption | exact Hout].
Qed.

Lemma copy_element_rooted path : forall out,
  last out = Some ("/"%char : ascii) ->
  last (snd (filepath.copy_element path out)) = Some ("/"%char : ascii).
Proof.
  induction path as [|c rest IH]; intros out Hl; simpl; [exact Hl|].
  destruct (filepath.IsPathSeparator c); [exact Hl|].
  apply IH. now apply last_cons_some.
Qed.

(** The loop of [Clean] never removes the leading slash of a rooted path. *)
Lemma clean_loop_rooted fuel : forall path out,
  last out = Some ("/"%char : ascii) ->
  last (filepath.clean_loop fuel true path out 1) = Some ("/"%char : ascii).
Proof.
  induction fuel as [|fuel IH]; intros path out Hl; [exact Hl|].
  destruct path as [|c rest]; [exact Hl|]. cbn [filepath.clean_loop].
  destruct (filepath.IsPathSeparator c); [now apply IH|].
  destruct (byte_eqb c "." && filepath.starts_sep_or_empty rest); [now apply IH|].
  assert (Hcopy : forall o, last o = Some ("/"%char : ascii) ->
    last (let '(path', out2) := filepath.copy_element (String c rest) o in
          filepath.clean_loop fuel true path' out2 1) = Some ("/"%char : ascii)).
  { intros o Ho. pose proof (copy_element_rooted (String c rest) o Ho) as Hc.
    destruct (filepath.copy_element (String c rest) o) as [path' out2].
    now apply IH. }
  assert (Hpush : last (if (true && negb (length out =? 1)%nat)
                           || (negb true && negb (length out =? 0)%nat)
                        then ("/"%char : ascii) :: out else out)
                  = Some ("/"%char : ascii)).
  { destruct (_ || _); [now apply last_cons_some | exact Hl]. }
  destruct rest as [|c2 rest2]; [now apply Hcopy|].
  destruct (byte_eqb c "." && byte_eqb c2 "." && filepath.starts_sep_or_empty rest2);
    [|now apply Hcopy].
  destruct (Nat.ltb_spec 1 (length out)).
  - apply IH. now apply backtrack_rooted.
  - cbn [negb]. now apply IH.
Qed.

Lemma string_of_buf_first out c : forall acc,
  last out = Some c -> exists rest, fold_left (fun a x => String x a) out acc = String c rest.
Proof.
  induction out as [|d out IH]; intros acc Hl; [discriminate|].
  destruct out as [|e out].
  - injection Hl as ->. now exists acc.
  - simpl. apply (IH (String d acc)). exact Hl.
Qed.

Lemma Clean_rooted rest : exists d, filepath.Clean (String "/" rest) = String "/" d.
Proof.
  unfold filepath.Clean. cbn [filepath.IsPathSeparator byte_eqb Ascii.eqb Bool.eqb].
  pose proof (clean_loop_rooted (String.length (String "/" rest)) rest
                [("/"%char : ascii)] eq_refl) as Hl.
  destruct (filepath.clean_loop _ true rest _ 1) as [|c out]; [discriminate|].
  apply string_of_buf_first. exact Hl.
Qed.

Lemma upto_last_separator_rooted rest :
  exists kept, filepath.upto_last_separator (String "/" rest) = String "/" kept.
Proof.
  simpl. destruct (filepath.upto_last_separator rest) as [|c kept].
  - now exists "".
  - now exists (String c kept).
Qed.

Section Directory.

Context {W : Type} `{Runtime W}.

(** X15. The first thing [WriteFile] does is [mkdir -p] on a directory
    that is never the empty string (a bare file name gives "."), and
    that is an absolute path whenever the destination is one. *)
Theorem WriteFile_directory_is_never_empty
        (n : Node) (dest content : string) (s : sys W) :
  (exists r,
     head (issued s (snd (run (WriteFile n dest content) s)))
     = Some (CallRunLoggingOutputOnFail (Command n "mkdir" ["-p"; filepath.Dir dest]), r))
  /\ filepath.Dir dest <> ""
  /\ (forall rest, dest = String "/" rest -> exists d, filepath.Dir dest = String "/" d).
Proof.
  repeat apply conj.
  - unfold WriteFile, exec.RunLoggingOutputOnFail, exec.Run.
    cbn [run bind fst snd cache_of world trace].
    destruct (perform _ (world s)) as [[lines [e|]] w1];
      cbn [run bind fst snd cache_of world trace].
    + rewrite issued_app. eexists. reflexivity.
    + destruct (perform _ w1) as [r2 w2]. cbn [run snd].
      rewrite issued_app2. eexists. reflexivity.
  - apply Clean_nonempty.
  - intros rest ->. unfold filepath.Dir.
    destruct (upto_last_separator_rooted rest) as [kept ->]. apply Clean_rooted.
Qed.

End Directory.

(** ** Concrete runs of the further properties *)

Lemma queries_change_only_their_field_witness :
  80 <> 6443
  /\ HostPort (cache_of (snd (run (Ports plainSprintf kindNode 6443) goodPort))) 6443
     = (32769, true)
  /\ HostPort (cache_of (snd (run (Ports plainSprintf kindNode 6443) goodPort))) 80
     = HostPort (cache_of goodPort) 80
  /\ kubernetesVersion (cache_of (snd (run (Ports plainSprintf kindNode 6443) goodPort)))
     = kubernetesVersion (cache_of goodPort).
Proof.
  assert (Hne : 80 <> 6443) by lia.
  destruct (queries_change_only_their_field plainSprintf roleKey kindNode 6443 goodPort)
    as (_ & _ & _ & Hkv & _ & _ & Hother).
  refine (conj Hne (conj _ (conj (Hother 80 Hne) Hkv))). reflexivity.
Defined.


Lemma queries_ask_once_on_a_miss_witness :
  is_query OpKubeVersion = true
  /\ length (issued (fresh versionScript)
               (snd (run (invoke plainSprintf roleKey kindNode OpKubeVersion)
                         (fresh versionScript)))) = 1%nat
  /\ length (issued afterVersion
               (snd (run (invoke plainSprintf roleKey kindNode OpKubeVersion)
                         afterVersion))) = 0%nat.
Proof.
  refine (conj eq_refl (conj _ _)).
  - exact (queries_ask_once_on_a_miss plainSprintf roleKey kindNode OpKubeVersion
             (fresh versionScript) eq_refl).
  - exact (queries_ask_once_on_a_miss plainSprintf roleKey kindNode OpKubeVersion
             afterVersion eq_refl).
Defined.

Lemma cached_query_is_a_no_op_witness :
  cached (cache_of afterVersion) OpKubeVersion = true
  /\ run_ops plainSprintf roleKey kindNode ([OpIP] ++ OpKubeVersion :: [OpRole]) afterVersion
     = run_ops plainSprintf roleKey kindNode ([OpIP] ++ [OpRole]) afterVersion.
Proof.
  assert (Hc : cached (cache_of afterVersion) OpKubeVersion = true) by reflexivity.
  exact (conj Hc (cached_query_is_a_no_op plainSprintf roleKey kindNode OpKubeVersion
                    [OpIP] [OpRole] afterVersion Hc)).
Defined.

Lemma version_and_ip_are_the_line_verbatim_witness :
  issued quotedIP (snd (run (IP kindNode) quotedIP))
    = [(inspectIP kindNode, (["'172.17.0.2'"], None))]
  /\ fst (run (IP kindNode) quotedIP) = ("'172.17.0.2'", None)
  /\ ip (cache_of (snd (run (IP kindNode) quotedIP))) = "'172.17.0.2'".
Proof.
  assert (Hi : issued quotedIP (snd (run (IP kindNode) quotedIP))
               = [(inspectIP kindNode, (["'172.17.0.2'"], None))]) by reflexivity.
  exact (conj Hi (proj2 (version_and_ip_are_the_line_verbatim kindNode quotedIP _ _
                           (inspectIP kindNode) "'172.17.0.2'" Hi)
                        (surjective_pairing _))).
Defined.

Lemma empty_values_are_not_remembered_witness :
  (issued emptyLine (snd (run (KubeVersion kindNode) emptyLine))
     = [(catVersion kindNode, ([""], None))]
   /\ fst (run (KubeVersion kindNode) emptyLine) = ("", None)
   /\ cached (cache_of (snd (run (KubeVersion kindNode) emptyLine))) OpKubeVersion = false)
  /\
  (issued onlyQuotes (snd (run (Role plainSprintf roleKey kindNode) onlyQuotes))
     = [(inspectRole plainSprintf roleKey kindNode, (["''"], None))]
   /\ fst (run (Role plainSprintf roleKey kindNode) onlyQuotes) = ("", None)
   /\ cached (cache_of (snd (run (Role plainSprintf roleKey kindNode) onlyQuotes))) OpRole
      = false).
Proof.
  assert (H1 : issued emptyLine (snd (run (KubeVersion kindNode) emptyLine))
               = [(catVersion kindNode, ([""], None))]) by reflexivity.
  assert (H2 : issued onlyQuotes (snd (run (Role plainSprintf roleKey kindNode) onlyQuotes))
               = [(inspectRole plainSprintf roleKey kindNode, (["''"], None))])
    by reflexivity.
  destruct (empty_values_are_not_remembered plainSprintf roleKey kindNode 6443
              emptyLine _ _ _ H1) as (Kv & _).
  destruct (empty_values_are_not_remembered plainSprintf roleKey kindNode 6443
              onlyQuotes _ _ _ H2) as (_ & _ & Ro & _).
  exact (conj (conj H1 (Kv _ (surjective_pairing _)))
              (conj H2 (Ro _ (surjective_pairing _)))).
Defined.

Lemma Role_has_no_quote_at_either_end_witness :
  role_is_trimmed (cache_of roleLater)
  /\ fst (run (Role plainSprintf roleKey kindNode)
              (run_ops plainSprintf roleKey kindNode [OpKubeVersion] roleLater))
     = ("worker", None)
  /\ strings.Trim "worker" "'" = "worker"
  /\ (forall rest, "worker" <> String "'" rest)
  /\ (forall front, "worker" <> front +:+ "'").
Proof.
  assert (H1 : role_is_trimmed (cache_of roleLater)) by reflexivity.
  assert (H2 : run (Role plainSprintf roleKey kindNode)
                   (run_ops plainSprintf roleKey kindNode [OpKubeVersion] roleLater)
               = (("worker", None),
                  snd (run (Role plainSprintf roleKey kindNode)
                           (run_ops plainSprintf roleKey kindNode [OpKubeVersion]
                                    roleLater)))) by reflexivity.
  refine (conj H1 (conj _ _)).
  - now rewrite H2.
  - exact (Role_has_no_quote_at_either_end plainSprintf roleKey kindNode [OpKubeVersion]
             roleLater _ "worker" H1 H2).
Defined.

Lemma proxy_entries_come_from_the_environment_witness :
  Envs (getProxyDetails lowerOnly) !! "HTTP_PROXY" = Some "http://x"
  /\ ("HTTP_PROXY" ∈ proxyEnvs)
  /\ "http://x" <> ""
  /\ (lowerOnly !! "HTTP_PROXY" = Some "http://x"
      \/ lowerOnly !! strings.ToLower "HTTP_PROXY" = Some "http://x").
Proof.
  assert (H1 : Envs (getProxyDetails lowerOnly) !! "HTTP_PROXY" = Some "http://x")
    by (vm_compute; reflexivity).
  exact (conj H1 (proxy_entries_come_from_the_environment lowerOnly "HTTP_PROXY"
                    "http://x" H1)).
Defined.

Lemma proxy_details_read_six_variables_witness :
  same_proxy_variables lowerOnly withEditor
  /\ getProxyDetails lowerOnly = getProxyDetails withEditor.
Proof.
  assert (H1 : same_proxy_variables lowerOnly withEditor).
  { intros name Hin. apply list_elem_of_In in Hin. simpl in Hin.
    destruct Hin as [<-|[<-|[<-|[]]]]; split; vm_compute; reflexivity. }
  exact (conj H1 (proxy_details_read_six_variables lowerOnly withEditor H1)).
Defined.

Lemma overlapping_calls_keep_set_fields_witness :
  (forall c (w : unit), fst (perform c w) = steady_answer c)
  /\ within plainSprintf roleKey kindNode steady_answer (cache_of steadyStart)
  /\ within plainSprintf roleKey kindNode steady_answer
       (cache_of (snd (schedule raceOrder
                         (map (invoke plainSprintf roleKey kindNode)
                              [OpKubeVersion; OpKubeVersion]) steadyStart)))
  /\ grows (cache_of steadyStart)
       (cache_of (snd (schedule raceOrder
                         (map (invoke plainSprintf roleKey kindNode)
                              [OpKubeVersion; OpKubeVersion]) steadyStart))).
Proof.
  assert (H1 : within plainSprintf roleKey kindNode steady_answer (cache_of steadyStart)).
  { unfold within; simpl. repeat split; auto. discriminate. }
  exact (conj Steady_stable
           (conj H1 (overlapping_calls_keep_set_fields plainSprintf roleKey kindNode
                       steady_answer Steady_stable raceOrder
                       [OpKubeVersion; OpKubeVersion] steadyStart H1))).
Defined.

Lemma order_of_operations_does_not_matter_witness :
  (forall c (w : unit), fst (perform c w) = steady_answer c)
  /\ Permutation [OpIP; OpKubeVersion; OpPorts 6443] [OpKubeVersion; OpIP; OpPorts 6443]
  /\ cache_of (run_ops plainSprintf roleKey kindNode
                 [OpIP; OpKubeVersion; OpPorts 6443] steadyStart)
     = cache_of (run_ops plainSprintf roleKey kindNode
                   [OpKubeVersion; OpIP; OpPorts 6443] steadyStart).
Proof.
  assert (H1 : Permutation [OpIP; OpKubeVersion; OpPorts 6443]
                           [OpKubeVersion; OpIP; OpPorts 6443]) by apply perm_swap.
  exact (conj Steady_stable
           (conj H1 (order_of_operations_does_not_matter plainSprintf roleKey kindNode
                       steady_answer Steady_stable _ _ steadyStart H1))).
Defined.

Lemma WriteFile_directory_is_never_empty_witness :
  "/a/b/c.txt" = String "/" "a/b/c.txt"
  /\ filepath.Dir "/a/b/c.txt" <> ""
  /\ exists d, filepath.Dir "/a/b/c.txt" = String "/" d.
Proof.
  destruct (WriteFile_directory_is_never_empty kindNode "/a/b/c.txt" "hello" bothSucceed)
    as (_ & Hne & Habs).
  exact (conj eq_refl (conj Hne (Habs "a/b/c.txt" eq_refl))).
Defined.

Lemma string_queries_return_nothing_with_an_error_witness :
  snd (fst (run (KubeVersion kindNode) failing))
    = Some (errors.Wrap exitStatus1 "failed to get file")
  /\ fst (fst (run (KubeVersion kindNode) failing)) = "".
Proof.
  assert (H1 : run (KubeVersion kindNode) failing
    = ((fst (fst (run (KubeVersion kindNode) failing)),
        Some (errors.Wrap exitStatus1 "failed to get file")),
       snd (run (KubeVersion kindNode) failing))) by reflexivity.
  exact (conj eq_refl
           (proj1 (string_queries_return_nothing_with_an_error plainSprintf roleKey
                     kindNode failing _ _ _) H1)).
Defined.

Lemma Ports_returns_the_number_in_the_line_witness :
  run (Ports plainSprintf kindNode 6443) goodPort
    = ((32769, None), snd (run (Ports plainSprintf kindNode 6443) goodPort))
  /\ issued goodPort (snd (run (Ports plainSprintf kindNode 6443) goodPort))
     = [(inspectPort plainSprintf kindNode 6443, (["32769"], None))]
  /\ decimal_value "32769" = Some 32769 /\ in_int32 32769
  /\ HostPort (cache_of (snd (run (Ports plainSprintf kindNode 6443) goodPort))) 6443
     = (32769, true).
Proof.
  assert (H1 : run (Ports plainSprintf kindNode 6443) goodPort
    = ((32769, None), snd (run (Ports plainSprintf kindNode 6443) goodPort)))
    by reflexivity.
  assert (H2 : issued goodPort (snd (run (Ports plainSprintf kindNode 6443) goodPort))
     = [(inspectPort plainSprintf kindNode 6443, (["32769"], None))])
    by (vm_compute; reflexivity).
  exact (conj H1 (conj H2 (Ports_returns_the_number_in_the_line plainSprintf kindNode
                             6443 32769 goodPort _ _ "32769" H1 H2))).
Defined.

Lemma version_file_is_not_read_again_witness :
  kubernetesVersion (cache_of afterVersion) <> ""
  /\ Forall (fun ev => fst ev <> catVersion kindNode)
       (issued afterVersion (run_ops plainSprintf roleKey kindNode later afterVersion)).
Proof.
  assert (H1 : kubernetesVersion (cache_of afterVersion) <> "")
    by (vm_compute; discriminate).
  exact (conj H1 (version_file_is_not_read_again plainSprintf roleKey kindNode later
                    afterVersion H1)).
Defined.
